(** * Document Analyzer agent: a shallow embedding of [streamlit_app.py]

    The development follows the source file top to bottom: the Python
    primitives it relies on ([str] methods, slices, [re.search]), the chunker
    [extract_and_chunk_pdf], the field extractor [_extract_field_from_text],
    the two module-level stores with the upload block, [query] and
    [summarize_doc].  Strings are lists of characters with code points
    0..255; integers are [Z].  What the program gets from outside is taken
    as given: a PDF is the list of texts [page.extract_text()] returns for
    its pages, the embedding model is a function from texts to vectors, and
    the answer of the semantic search is whatever list of (score, row)
    pairs the index hands back. *)

From Stdlib Require Import Ascii String.
From Stdlib Require Import List ZArith NArith Lia Bool Arith.
Import ListNotations.
Open Scope Z_scope.

(** ** Python primitives used by the program *)

Module Py.

Definition str := list ascii.

Definition lit (s : string) : str := list_ascii_of_string s.

Definition len {A : Type} (l : list A) : Z := Z.of_nat (length l).

Definition ord (c : ascii) : N := N_of_ascii c.

Definition between (lo hi : N) (c : ascii) : bool :=
  (N.leb lo (ord c) && N.leb (ord c) hi)%bool.

(** [str.isspace] on one character: TAB..CR, FS..US, space, NEL and NBSP. *)
Definition isspace (c : ascii) : bool :=
  (between 9 13 c || between 28 32 c
   || N.eqb (ord c) 133 || N.eqb (ord c) 160)%bool.

Definition isdigit (c : ascii) : bool := between 48 57 c.

Definition isupper (c : ascii) : bool :=
  (between 65 90 c
   || (between 192 222 c && negb (N.eqb (ord c) 215)))%bool.

Definition lower_char (c : ascii) : ascii :=
  if isupper c then ascii_of_N (ord c + 32) else c.

(** [s.lower()] *)
Definition lower (s : str) : str := map lower_char s.

(** [s.replace(old, new)] for one-character [old] and [new]. *)
Definition replace (old new : ascii) (s : str) : str :=
  map (fun c => if Ascii.eqb c old then new else c) s.

Fixpoint startswith (p s : str) : bool :=
  match p, s with
  | [], _ => true
  | _ :: _, [] => false
  | a :: p', b :: s' => (Ascii.eqb a b && startswith p' s')%bool
  end.

(** [needle in hay] *)
Fixpoint contains (needle hay : str) : bool :=
  (startswith needle hay
   || match hay with
      | [] => false
      | _ :: hay' => contains needle hay'
      end)%bool.

Fixpoint lstrip (s : str) : str :=
  match s with
  | [] => []
  | c :: r => if isspace c then lstrip r else s
  end.

Fixpoint rstrip (s : str) : str :=
  match s with
  | [] => []
  | c :: r =>
      match rstrip r with
      | [] => if isspace c then [] else [c]
      | r' => c :: r'
      end
  end.

(** [s.strip()] *)
Definition strip (s : str) : str := rstrip (lstrip s).

(** [sep.join(parts)] *)
Fixpoint join (sep : str) (parts : list str) : str :=
  match parts with
  | [] => []
  | [p] => p
  | p :: rest => p ++ sep ++ join sep rest
  end.

(** [s.split()]: maximal runs of non-whitespace characters. [cur] is the
    word being read, reversed. *)
Fixpoint split_from (cur : str) (s : str) : list str :=
  match s with
  | [] => match cur with [] => [] | _ => [rev cur] end
  | c :: r =>
      if isspace c
      then match cur with
           | [] => split_from [] r
           | _ => rev cur :: split_from [] r
           end
      else split_from (c :: cur) r
  end.

Definition split (s : str) : list str := split_from [] s.

(** Slice bounds: a negative bound counts from the end, and both bounds are
    clamped to [0, n]. *)
Definition clamp (n i : Z) : Z :=
  if i <? 0 then Z.max 0 (i + n) else Z.min i n.

(** [l[a:b]] *)
Definition slice {A : Type} (l : list A) (a b : Z) : list A :=
  let a' := clamp (len l) a in
  let b' := clamp (len l) b in
  firstn (Z.to_nat (b' - a')) (skipn (Z.to_nat a') l).

(** [l[i]]; [None] stands for IndexError. *)
Definition index {A : Type} (l : list A) (i : Z) : option A :=
  if (0 <=? i) && (i <? len l) then nth_error l (Z.to_nat i)
  else if (- len l <=? i) && (i <? 0) then nth_error l (Z.to_nat (len l + i))
  else None.

(** Truth value of an optional string: [None] and the empty string are false. *)
Definition truthy (o : option str) : option str :=
  match o with
  | Some (c :: r) => Some (c :: r)
  | _ => None
  end.

End Py.

(** ** Outcomes of code that may raise or loop *)

Inductive outcome (A : Type) : Type :=
| Done (a : A)
| IndexError
| OutOfFuel.
Arguments Done {A} a.
Arguments IndexError {A}.
Arguments OutOfFuel {A}.

Definition obind {A B : Type} (m : outcome A) (f : A -> outcome B) : outcome B :=
  match m with
  | Done a => f a
  | IndexError => IndexError
  | OutOfFuel => OutOfFuel
  end.

Notation "x <- m ;; k" := (obind m (fun x => k))
  (at level 61, m at next level, right associativity).

(** ** CONFIG *)

Definition CHUNK_SIZE : Z := 500.
Definition OVERLAP : Z := 100.
Definition EMB_DIM : Z := 384.

(** ** The chunker, [extract_and_chunk_pdf] *)

Section Chunker.

Variables chunk_size overlap : Z.

(** The inner [while end < extra_end and not text[end].isspace(): end += 1];
    [n] bounds the iterations by [extra_end - end]. *)
Fixpoint snap (text : Py.str) (n : nat) (end_ extra_end : Z) : outcome Z :=
  match n with
  | O => Done end_
  | S n' =>
      if end_ <? extra_end then
        match Py.index text end_ with
        | None => IndexError
        | Some c =>
            if Py.isspace c then Done end_
            else snap text n' (end_ + 1) extra_end
        end
      else Done end_
  end.

(** One iteration of [while start < len(text)]: the next [start] and the
    chunk appended to [all_chunks]. *)
Definition window (text : Py.str) (start : Z) : outcome (Z * Py.str) :=
  let end_ := start + chunk_size in
  let chunk := Py.slice text start end_ in
  if end_ <? Py.len text then
    let extra_end := Z.min (Py.len text) (end_ + 50) in
    end' <- snap text (Z.to_nat (extra_end - end_)) end_ extra_end ;;
    Done (end' - overlap, Py.strip (Py.slice text start end'))
  else Done (end_ - overlap, Py.strip chunk).

Fixpoint chunk_loop (fuel : nat) (text : Py.str) (start : Z)
    (all_chunks : list Py.str) : outcome (list Py.str) :=
  if start <? Py.len text then
    match fuel with
    | O => OutOfFuel
    | S fuel' =>
        r <- window text start ;;
        chunk_loop fuel' text (fst r) (all_chunks ++ [snd r])
    end
  else Done all_chunks.

End Chunker.

(** The body of [for page in pdf.pages]; [pages] holds what
    [page.extract_text()] returns for each page, in page order.  The window
    loop gets [len(text)] iterations of fuel, which it never uses up with
    the configured sizes ([chunk_loop_done], [chunk_loop_more_fuel]). *)
Fixpoint page_loop (pages : list (option Py.str)) (all_chunks : list Py.str)
  : outcome (list Py.str) :=
  match pages with
  | [] => Done all_chunks
  | page :: rest =>
      let text := match page with Some t => t | None => [] end in
      let text := Py.strip text in
      match text with
      | [] => page_loop rest all_chunks
      | _ =>
          all_chunks' <-
            chunk_loop CHUNK_SIZE OVERLAP (length text) text 0 all_chunks ;;
          if 2000 <? Py.len all_chunks' then Done all_chunks'
          else page_loop rest all_chunks'
      end
  end.

Definition extract_and_chunk_pdf (file : list (option Py.str))
  : outcome (list Py.str) :=
  page_loop file [].

(** ** Regular expressions: the fragment of [re] the program uses

    A backtracking matcher in continuation-passing style, as Python's engine
    is: alternatives are tried left to right, repetitions are greedy and give
    characters back one at a time, and [search] tries every start position
    from the left.  Repetition is over one-character sets only, which is all
    the program's patterns need; an optional group is [Opt]. *)

Module Re.

Import Py.

Inductive regex : Type :=
| Eps
| Set_ (p : ascii -> bool)
| Cat (r1 r2 : regex)
| Alt (r1 r2 : regex)
| Rep (p : ascii -> bool) (lo : nat) (hi : option nat)
| Opt (r : regex)
| Grp (n : nat) (r : regex).

(** Captured groups, most recent first. *)
Definition caps := list (nat * str).

Fixpoint lookup (n : nat) (c : caps) : option str :=
  match c with
  | [] => None
  | (n', g) :: c' => if Nat.eqb n n' then Some g else lookup n c'
  end.

(** A match object: the whole match ([group(0)]) and the groups. *)
Record match_ : Type := { whole : str; groups : caps }.

Definition group (n : nat) (m : match_) : option str :=
  match n with
  | O => Some (whole m)
  | _ => lookup n (groups m)
  end.

Definition within (hi : option nat) (n : nat) : bool :=
  match hi with
  | None => true
  | Some h => Nat.leb n h
  end.

(** How many leading characters of [s] are in the set, at most [hi]. *)
Fixpoint count (p : ascii -> bool) (hi : option nat) (s : str) : nat :=
  match s with
  | [] => O
  | a :: s' =>
      if (p a && within hi 1)%bool
      then S (count p (option_map Nat.pred hi) s')
      else O
  end.

(** Greedy backtracking: try [f i], then [f (i-1)], ... down to [f lo]. *)
Fixpoint try_down {R : Type} (i lo : nat) (f : nat -> option R) : option R :=
  if Nat.ltb i lo then None
  else match f i with
       | Some x => Some x
       | None => match i with
                 | O => None
                 | S i' => try_down i' lo f
                 end
       end.

(** [run r s c k]: match [r] at the head of [s]; the continuation gets the
    text matched, the rest of the input and the groups. *)
Fixpoint run {R : Type} (r : regex) (s : str) (c : caps)
    (k : str -> str -> caps -> option R) : option R :=
  match r with
  | Eps => k [] s c
  | Set_ p =>
      match s with
      | a :: s' => if p a then k [a] s' c else None
      | [] => None
      end
  | Cat r1 r2 =>
      run r1 s c (fun m1 s1 c1 =>
        run r2 s1 c1 (fun m2 s2 c2 => k (m1 ++ m2) s2 c2))
  | Alt r1 r2 =>
      match run r1 s c k with
      | Some x => Some x
      | None => run r2 s c k
      end
  | Rep p lo hi =>
      try_down (count p hi s) lo (fun i => k (firstn i s) (skipn i s) c)
  | Opt r1 =>
      match run r1 s c k with
      | Some x => Some x
      | None => k [] s c
      end
  | Grp n r1 => run r1 s c (fun m s' c' => k m s' ((n, m) :: c'))
  end.

Definition match_here (r : regex) (s : str) : option match_ :=
  run r s [] (fun m _ c => Some {| whole := m; groups := c |}).

(** [re.search(r, s)] *)
Fixpoint search (r : regex) (s : str) : option match_ :=
  match match_here r s with
  | Some m => Some m
  | None => match s with
            | [] => None
            | _ :: s' => search r s'
            end
  end.

(** *** Pattern syntax *)

Definition chr (a : ascii) : regex := Set_ (Ascii.eqb a).

Fixpoint Seq (rs : list regex) : regex :=
  match rs with
  | [] => Eps
  | [r] => r
  | r :: rs' => Cat r (Seq rs')
  end.

(** A literal string. *)
Definition Str (s : string) : regex := Seq (map chr (lit s)).

Fixpoint Alts (rs : list regex) : regex :=
  match rs with
  | [] => Set_ (fun _ => false)
  | [r] => r
  | r :: rs' => Alt r (Alts rs')
  end.

Definition one_of (s : string) (a : ascii) : bool :=
  existsb (Ascii.eqb a) (lit s).

Definition range (lo hi : ascii) (a : ascii) : bool :=
  between (ord lo) (ord hi) a.

Definition union (p q : ascii -> bool) (a : ascii) : bool := (p a || q a)%bool.

Definition Star (p : ascii -> bool) : regex := Rep p 0 None.
Definition Plus (p : ascii -> bool) : regex := Rep p 1 None.
Definition Maybe (p : ascii -> bool) : regex := Rep p 0 (Some 1%nat).

(** [\s] and [\d] *)
Definition space : ascii -> bool := isspace.
Definition digit : ascii -> bool := isdigit.

(** *** [re.IGNORECASE] *)

Definition islower (c : ascii) : bool :=
  (between 97 122 c
   || (between 224 254 c && negb (N.eqb (ord c) 247)))%bool.

Definition upper_char (c : ascii) : ascii :=
  if islower c then ascii_of_N (ord c - 32) else c.

(** A character is in a set, ignoring case, when it or its other case is. *)
Definition icase (p : ascii -> bool) (a : ascii) : bool :=
  (p a || p (lower_char a) || p (upper_char a))%bool.

Fixpoint IGNORECASE (r : regex) : regex :=
  match r with
  | Eps => Eps
  | Set_ p => Set_ (icase p)
  | Cat r1 r2 => Cat (IGNORECASE r1) (IGNORECASE r2)
  | Alt r1 r2 => Alt (IGNORECASE r1) (IGNORECASE r2)
  | Rep p lo hi => Rep (icase p) lo hi
  | Opt r1 => Opt (IGNORECASE r1)
  | Grp n r1 => Grp n (IGNORECASE r1)
  end.

End Re.

(** ** The field extractor, [_extract_field_from_text] *)

Import Py Re.
Open Scope char_scope.

Definition alpha : ascii -> bool := union (range "A" "Z") (range "a" "z").
Definition alnum : ascii -> bool := union alpha (range "0" "9").

(** [(?:name of student|name)\s*[:\-]?\s*([A-Z][a-zA-Z ,.'-]{2,})] *)
Definition NAME_RE : regex :=
  Seq [ Alts [Str "name of student"; Str "name"];
        Star space; Maybe (one_of ":-"); Star space;
        Grp 1 (Seq [ Set_ (range "A" "Z");
                     Rep (union (range "a" "z")
                            (union (range "A" "Z") (one_of " ,.'-")))
                         2 None ]) ].

(** [(?:semester|sem)\s*[:\-]?\s*([0-9]{1,2}|[ivxlcdm]+|[0-9]{1,2}(st|nd|rd|th)?)] *)
Definition SEMESTER_RE : regex :=
  Seq [ Alts [Str "semester"; Str "sem"];
        Star space; Maybe (one_of ":-"); Star space;
        Grp 1 (Alts [ Rep (range "0" "9") 1 (Some 2%nat);
                      Plus (one_of "ivxlcdm");
                      Seq [ Rep (range "0" "9") 1 (Some 2%nat);
                            Opt (Grp 2 (Alts [Str "st"; Str "nd";
                                              Str "rd"; Str "th"])) ] ]) ].

(** [(?:CGPA|GPA|CPI|SGPA)\s*[:=\-]?\s*([\d]{1,2}(?:\.\d{1,4})?)] *)
Definition GPA_RE : regex :=
  Seq [ Alts [Str "CGPA"; Str "GPA"; Str "CPI"; Str "SGPA"];
        Star space; Maybe (one_of ":=-"); Star space;
        Grp 1 (Seq [ Rep digit 1 (Some 2%nat);
                     Opt (Seq [chr "."; Rep digit 1 (Some 4%nat)]) ]) ].

(** [[A-Za-z0-9._%+-]+@[A-Za-z0-9.-]+\.[A-Za-z]{2,}] *)
Definition EMAIL_RE : regex :=
  Seq [ Plus (union alnum (one_of "._%+-"));
        chr "@";
        Plus (union alnum (one_of ".-"));
        chr ".";
        Rep alpha 2 None ].

(** [(?:\+?\d{1,3}[\s-]?)?(?:\d[\d\s-]{7,}\d)] *)
Definition PHONE_RE : regex :=
  Seq [ Opt (Seq [ Maybe (one_of "+"); Rep digit 1 (Some 3%nat);
                   Maybe (union space (one_of "-")) ]);
        Set_ digit;
        Rep (union digit (union space (one_of "-"))) 7 None;
        Set_ digit ].

(** [https?://github\.com/[A-Za-z0-9_.-]+] *)
Definition GITHUB_RE : regex :=
  Seq [ Str "http"; Maybe (one_of "s"); Str "://github.com/";
        Plus (union alnum (one_of "_.-")) ].

(** The field categories, in the order the function tests them. *)
Inductive Field : Type := Name | Semester | GPA | Email | Phone | GitHubURL.

(** The condition of each [if] on the lower-cased question [q]. *)
Definition keyword (f : Field) (q : str) : bool :=
  match f with
  | Name => contains (lit "name") q
  | Semester => (contains (lit "semester") q || contains (lit "sem") q)%bool
  | GPA => existsb (fun word => contains word q)
             [lit "gpa"; lit "cgpa"; lit "cpi"; lit "sgpa"]
  | Email => contains (lit "email") q
  | Phone => (contains (lit "phone") q || contains (lit "contact") q
              || contains (lit "mobile") q)%bool
  | GitHubURL => contains (lit "github") q
  end.

(** [m.group(n)] followed by the method applied to it.  A group that took no
    part in a match is [None] in Python; [group1_participates] below shows
    the groups read here always take part. *)
Definition grp (n : nat) (post : str -> str) (m : option match_) : option str :=
  match m with
  | Some m' => option_map post (group n m')
  | None => None
  end.

(** The body of each [if]: the search on [t] and the value returned on a
    match. *)
Definition extract (f : Field) (t : str) : option str :=
  match f with
  | Name => grp 1 strip (search (IGNORECASE NAME_RE) t)
  | Semester => grp 1 strip (search (IGNORECASE SEMESTER_RE) t)
  | GPA => grp 1 id (search (IGNORECASE GPA_RE) t)
  | Email => grp 0 id (search EMAIL_RE t)
  | Phone => grp 0 strip (search PHONE_RE t)
  | GitHubURL => grp 0 id (search (IGNORECASE GITHUB_RE) t)
  end.

(** [if keyword: m = re.search(...); if m: return ...] falls through to the
    code after it when either test fails. *)
Definition attempt (f : Field) (q t : str) (otherwise : option str)
  : option str :=
  if keyword f q then
    match extract f t with
    | Some a => Some a
    | None => otherwise
    end
  else otherwise.

Definition _extract_field_from_text (question text : str) : option str :=
  let q := lower question in
  let t := replace "010" " " text in
  attempt Name q t
    (attempt Semester q t
       (attempt GPA q t
          (attempt Email q t
             (attempt Phone q t
                (attempt GitHubURL q t None))))).

Close Scope char_scope.

Fixpoint enumerate_from {A : Type} (i : Z) (l : list A) : list (Z * A) :=
  match l with
  | [] => []
  | x :: l' => (i, x) :: enumerate_from (i + 1) l'
  end.

(** [enumerate(l)] *)
Definition enumerate {A : Type} (l : list A) : list (Z * A) :=
  enumerate_from 0 l.

(** ** The vector index

    The index is a [faiss.IndexFlatIP], an external library whose code is
    not in the source file; the program only calls its [add] and [search].
    [add] is modelled from section 4.3 of the spec, [search] on what the
    library's flat index does, which is to answer with [k] pairs whatever
    the number of rows.  Scores are floats in the program; here they are any
    type with a comparison. *)

Module VectorIndex.
Section Index.

Variables vec score : Type.
Variable inner : vec -> vec -> score.
Variable score_leb : score -> score -> bool.
Variable pad : score.

(** Modelled from the spec: [index.add(vectors)], missing from the source.
    The index is append-only: the new rows follow the stored ones. *)
Definition add (rows vectors : list vec) : list vec := rows ++ vectors.

Fixpoint insert_desc (h : score * Z) (sorted : list (score * Z))
  : list (score * Z) :=
  match sorted with
  | [] => [h]
  | h' :: rest =>
      if score_leb (fst h) (fst h') then h' :: insert_desc h rest
      else h :: sorted
  end.

Definition sort_desc (hits : list (score * Z)) : list (score * Z) :=
  fold_right insert_desc [] hits.

(** [index.search(query, k)] of [faiss.IndexFlatIP].  The library is not part
    of the source file; this is how its flat index answers.  The call fails
    on its assertion [k > 0] unless [k] is positive ([None]).  Otherwise
    every stored row is scored by its inner product with the query and the
    answer has exactly [k] (score, row-index) pairs: the best rows in
    descending order of score and, when the index holds fewer than [k] rows,
    pairs of the lowest score [pad] and row index -1 after them. *)
Definition search (rows : list vec) (q : vec) (k : Z)
  : option (list (score * Z)) :=
  if k <? 1 then None
  else
    let found :=
      firstn (Z.to_nat k)
        (sort_desc
           (map (fun iv => (inner q (snd iv), fst iv)) (enumerate rows))) in
    Some (found ++ repeat (pad, -1) (Z.to_nat k - length found)).

End Index.

Arguments add {vec} rows vectors.
Arguments insert_desc {score} score_leb h sorted.
Arguments sort_desc {score} score_leb hits.
Arguments search {vec score} inner score_leb pad rows q k.

End VectorIndex.

(** ** The module-level stores and the upload block

    The script creates both stores empty when it starts; the block under
    [if uploaded_file:] adds the chunks of one file to both. *)

Record Chunk : Type := { chunk_id : Z; text : str }.

Section Stores.

(** [encode] stands for [model.encode] followed by [faiss.normalize_L2], on
    one text. *)
Variable vec : Type.
Variable encode : str -> vec.

Record State : Type := { index : list vec; docs_meta : list Chunk }.

(** [index = faiss.IndexFlatIP(EMB_DIM)] and [docs_meta = []] *)
Definition init : State := {| index := []; docs_meta := [] |}.

(** [for i, chunk in enumerate(chunks): docs_meta.append(...)] *)
Definition append_chunks (docs : list Chunk) (chunks : list str) : list Chunk :=
  fold_left
    (fun d ic => d ++ [ {| chunk_id := fst ic; text := snd ic |} ])
    (enumerate chunks) docs.

(** The block run for an uploaded file, up to the two stores. *)
Definition upload (st : State) (uploaded_file : list (option str))
  : outcome State :=
  chunks <- extract_and_chunk_pdf uploaded_file ;;
  match chunks with
  | [] => Done st
  | _ =>
      let embeddings := map encode chunks in
      Done {| index := VectorIndex.add (index st) embeddings;
              docs_meta := append_chunks (docs_meta st) chunks |}
  end.

Fixpoint uploads (st : State) (files : list (list (option str)))
  : outcome State :=
  match files with
  | [] => Done st
  | f :: rest => st' <- upload st f ;; uploads st' rest
  end.

End Stores.

Arguments index {vec} s.
Arguments docs_meta {vec} s.

(** ** [query] *)

Section Query.

(** The type of similarity scores; the program only copies them. *)
Variable score : Type.

(** A result dictionary; direct extractions have no [score] key. *)
Record QueryResult : Type :=
  { score_ : option score; answer : str; context : str }.

(** A computation that may consult the semantic search once per [Search]
    node: [model.encode] of the question, [normalize_L2] and
    [index.search(q_emb, k)], answered by [zip(D[0], I[0])]. *)
Inductive prog (A : Type) : Type :=
| Ret (a : A)
| Raise
| Search (question : str) (k : Z) (cont : list (score * Z) -> prog A).
Arguments Ret {A} a.
Arguments Raise {A}.
Arguments Search {A} question k cont.

(** [" ".join([d["text"] for d in docs_meta])] *)
Definition all_text (docs : list Chunk) : str :=
  join (lit " ") (map text docs).

(** [for score, idx in zip(D[0], I[0])] *)
Fixpoint results_loop (docs : list Chunk) (question : str)
    (hits : list (score * Z)) (results : list QueryResult)
  : prog (list QueryResult) :=
  match hits with
  | [] => Ret results
  | (sc, idx) :: rest =>
      if idx <? len docs then
        match Py.index docs idx with
        | None => Raise
        | Some d =>
            let text_chunk := text d in
            let answer := _extract_field_from_text question text_chunk in
            results_loop docs question rest
              (results ++
               [ {| score_ := Some sc;
                    answer := match truthy answer with
                              | Some a => a
                              | None => slice text_chunk 0 200
                              end;
                    context := slice text_chunk 0 500 |} ])
        end
      else results_loop docs question rest results
  end.

Definition query (docs : list Chunk) (question : str) (k : Z)
  : prog (list QueryResult) :=
  match docs with
  | [] => Ret []
  | _ =>
      let direct := _extract_field_from_text question (all_text docs) in
      match truthy direct with
      | Some direct' =>
          Ret [ {| score_ := None; answer := direct';
                   context := lit "Extracted directly" |} ]
      | None =>
          Search question k (fun hits => results_loop docs question hits [])
      end
  end.

(** Running a computation against a given semantic search; [None] is an
    uncaught exception. *)
Fixpoint exec {A : Type} (semantic : str -> Z -> list (score * Z))
    (p : prog A) : option A :=
  match p with
  | Ret a => Some a
  | Raise => None
  | Search question k cont => exec semantic (cont (semantic question k))
  end.

End Query.

Arguments score_ {score} q.
Arguments answer {score} q.
Arguments context {score} q.
Arguments Ret {score A} a.
Arguments Raise {score A}.
Arguments Search {score A} question k cont.
Arguments exec {score A} semantic p.

(** ** [summarize_doc] *)

Open Scope char_scope.

(** [(?:CGPA|GPA|SGPA|CPI)\s*[:=\-]?\s*([\d]+(?:\.\d{1,4})?)] *)
Definition SUMMARY_GPA_RE : regex :=
  Seq [ Alts [Str "CGPA"; Str "GPA"; Str "SGPA"; Str "CPI"];
        Star space; Maybe (one_of ":=-"); Star space;
        Grp 1 (Seq [ Plus digit;
                     Opt (Seq [chr "."; Rep digit 1 (Some 4%nat)]) ]) ].

Definition summarize_doc (docs : list Chunk) (word_count : Z) : str :=
  let combined := join (lit " ") (map text docs) in
  let words := split combined in
  let m := search (IGNORECASE SUMMARY_GPA_RE) combined in
  let cgpa_line :=
    match grp 1 id m with
    | Some value => lit "CGPA: " ++ value ++ ["010"]
    | None => []
    end in
  let summary_text :=
    join (lit " ") (slice words 0 word_count)
    ++ (if (word_count <? len words)%Z then lit " ..." else []) in
  cgpa_line ++ summary_text.

Close Scope char_scope.

(** ** Vocabulary of the properties *)

(** No whitespace at either end. *)
Definition trimmed (s : str) : bool :=
  match s with
  | [] => true
  | c :: _ => (negb (isspace c) && negb (isspace (last s c)))%bool
  end.

(** The categories in the order [_extract_field_from_text] tests them. *)
Definition priority : list Field :=
  [Name; Semester; GPA; Email; Phone; GitHubURL].

(** The first category whose keyword occurs in the lower-cased question. *)
Definition first_category (q : str) : option Field :=
  find (fun f => keyword f q) priority.

(** Every chunk's id is its position in the store. *)
Definition ids_are_positions (docs : list Chunk) : Prop :=
  forall i c, nth_error docs i = Some c -> chunk_id c = Z.of_nat i.

(** Row [i] of the index is the embedding of the text of chunk [i]. *)
Definition aligned {vec : Type} (encode : str -> vec) (st : State vec) : Prop :=
  index st = map (fun c => encode (text c)) (docs_meta st).

(** The summary in the words of the spec: the GPA line when the summarizer's
    GPA pattern matches the corpus, the first [word_count] words joined by
    single spaces, and the ellipsis when the corpus has more words. *)
Definition summary_spec (docs : list Chunk) (word_count : Z) : str :=
  let corpus := join (lit " ") (map text docs) in
  let words := split corpus in
  let gpa_line :=
    match search (IGNORECASE SUMMARY_GPA_RE) corpus with
    | Some m =>
        match group 1 m with
        | Some value => lit "CGPA: " ++ value ++ ["010"%char]
        | None => []
        end
    | None => []
    end in
  let first_words := firstn (Z.to_nat word_count) words in
  let ellipsis :=
    if Z.of_nat (length words) >? word_count then lit " ..." else [] in
  gpa_line ++ join (lit " ") first_words ++ ellipsis.

(** A page whose second window, characters 400 to 900, is all blank. *)
Definition blank_window_page : str :=
  lit "a" ++ repeat " "%char 900 ++ lit "b".

(** The chunks an upload appends, and the records made of them. *)
Definition chunks_of (file : list (option str)) : list str :=
  match extract_and_chunk_pdf file with
  | Done chunks => chunks
  | _ => []
  end.

Definition numbered (chunks : list str) : list Chunk :=
  map (fun ic => {| chunk_id := fst ic; text := snd ic |}) (enumerate chunks).

(** The chain of [if] blocks of [_extract_field_from_text], over any list of
    categories. *)
Fixpoint attempts (fs : list Field) (q t : str) : option str :=
  match fs with
  | [] => None
  | f :: fs' => attempt f q t (attempts fs' q t)
  end.

(** *** What a pattern matches

    [Sem r m c c']: the pattern [r] matches exactly the text [m], taking the
    groups from [c] to [c']. *)
Inductive Sem : regex -> str -> caps -> caps -> Prop :=
| SemEps c : Sem Eps [] c c
| SemSet p a c : p a = true -> Sem (Set_ p) [a] c c
| SemCat r1 r2 m1 m2 c c1 c2 :
    Sem r1 m1 c c1 -> Sem r2 m2 c1 c2 -> Sem (Cat r1 r2) (m1 ++ m2) c c2
| SemAltL r1 r2 m c c' : Sem r1 m c c' -> Sem (Alt r1 r2) m c c'
| SemAltR r1 r2 m c c' : Sem r2 m c c' -> Sem (Alt r1 r2) m c c'
| SemRep p lo hi m c :
    forallb p m = true -> (lo <= length m)%nat ->
    within hi (length m) = true -> Sem (Rep p lo hi) m c c
| SemOptSome r m c c' : Sem r m c c' -> Sem (Opt r) m c c'
| SemOptNone r c : Sem (Opt r) [] c c
| SemGrp n r m c c' : Sem r m c c' -> Sem (Grp n r) m c ((n, m) :: c').

(** Static checks on a pattern. [nullable]: it may match the empty text. *)
Fixpoint nullable (r : regex) : bool :=
  match r with
  | Eps => true
  | Set_ _ => false
  | Cat r1 r2 => (nullable r1 && nullable r2)%bool
  | Alt r1 r2 => (nullable r1 || nullable r2)%bool
  | Rep _ lo _ => Nat.eqb lo 0
  | Opt _ => true
  | Grp _ r1 => nullable r1
  end.

Definition all_ascii : list ascii := map ascii_of_nat (seq 0 256).

Definition subset (p P : ascii -> bool) : bool :=
  forallb (fun a => implb (p a) (P a)) all_ascii.

(** [first_ok P r]: a non-empty match of [r] starts with a character in [P]. *)
Fixpoint first_ok (P : ascii -> bool) (r : regex) : bool :=
  match r with
  | Eps => true
  | Set_ p => subset p P
  | Cat r1 r2 =>
      (first_ok P r1 && (if nullable r1 then first_ok P r2 else true))%bool
  | Alt r1 r2 => (first_ok P r1 && first_ok P r2)%bool
  | Rep p _ _ => subset p P
  | Opt r1 => first_ok P r1
  | Grp _ r1 => first_ok P r1
  end.

(** Every match is non-empty and starts with a character in [P]. *)
Definition starts_with (P : ascii -> bool) (r : regex) : bool :=
  (negb (nullable r) && first_ok P r)%bool.

(** Every group numbered [n] inside [r] passes [chk]. *)
Fixpoint groups_ok (chk : regex -> bool) (n : nat) (r : regex) : bool :=
  match r with
  | Grp n' r1 =>
      ((if Nat.eqb n n' then chk r1 else true) && groups_ok chk n r1)%bool
  | Cat r1 r2 | Alt r1 r2 => (groups_ok chk n r1 && groups_ok chk n r2)%bool
  | Opt r1 => groups_ok chk n r1
  | _ => true
  end.

(** Every match of [r] sets group [n]. *)
Fixpoint sets (n : nat) (r : regex) : bool :=
  match r with
  | Grp n' r1 => (Nat.eqb n n' || sets n r1)%bool
  | Cat r1 r2 => (sets n r1 || sets n r2)%bool
  | Alt r1 r2 => (sets n r1 && sets n r2)%bool
  | _ => false
  end.

Definition nonspace (a : ascii) : bool := negb (isspace a).

(** A text that starts with a character in [P]. *)
Definition headed (P : ascii -> bool) (g : str) : Prop :=
  exists a g', g = a :: g' /\ P a = true.

(** Chunk records for examples: chunk [i] of the list has id [i]. *)
Definition store_of (texts : list string) : list Chunk :=
  numbered (map lit texts).

(** [u] occurs in [t] as a contiguous piece. *)
Definition infix (u t : str) : Prop := exists pre post, t = pre ++ u ++ post.

(** A page that gives no text once stripped ([if not text: continue]). *)
Definition blank (page : option str) : bool :=
  match strip (match page with Some t => t | None => [] end) with
  | [] => true
  | _ => false
  end.

(** What one page may add to the count of chunks, times the step
    [CHUNK_SIZE - OVERLAP] between windows. *)
Definition page_budget (page : option str) : Z :=
  len (strip match page with Some t => t | None => [] end)
  + (CHUNK_SIZE - OVERLAP - 1).

(** [chars_ok P r]: every character of every match of [r] is in [P]. *)
Fixpoint chars_ok (P : ascii -> bool) (r : regex) : bool :=
  match r with
  | Eps => true
  | Set_ p => subset p P
  | Cat r1 r2 | Alt r1 r2 => (chars_ok P r1 && chars_ok P r2)%bool
  | Rep p _ _ => subset p P
  | Opt r1 => chars_ok P r1
  | Grp _ r1 => chars_ok P r1
  end.

(** The chunk [docs_meta[idx]] of a hit that did not raise. *)
Definition chunk_at (docs : list Chunk) (idx : Z) : Chunk :=
  match Py.index docs idx with
  | Some d => d
  | None => {| chunk_id := 0; text := [] |}
  end.

(** The result built from a hit when the extractor finds nothing in the
    chunk: the score, and the first 200 and 500 characters of the chunk. *)
Definition prefix_result {score : Type} (docs : list Chunk)
    (hit : score * Z) : QueryResult score :=
  {| score_ := Some (fst hit);
     answer := slice (text (chunk_at docs (snd hit))) 0 200;
     context := slice (text (chunk_at docs (snd hit))) 0 500 |}.

(** The result of a direct extraction. *)
Definition direct_result {score : Type} (a : str) : QueryResult score :=
  {| score_ := None; answer := a; context := lit "Extracted directly" |}.

(** A hit below the store: [docs_meta[idx]] raises for it. *)
Definition below {score : Type} (docs : list Chunk) (hit : score * Z) : bool :=
  snd hit <? - len docs.

(** A hit that passes the test [idx < len(docs_meta)]. *)
Definition kept {score : Type} (docs : list Chunk) (hit : score * Z) : bool :=
  snd hit <? len docs.

(** A word: not empty and free of whitespace. *)
Definition word (w : str) : Prop :=
  w <> [] /\ forallb (fun a => negb (isspace a)) w = true.

(** ** The Streamlit script

    One run of the script: it starts from empty stores, shows the title and
    the uploader, and, when a file is there, chunks it, fills the stores and
    shows the summary and the answer to the question typed.  The widgets
    shown are collected in order; [uploaded_file] is what
    [st.file_uploader] returns and [user_q] what [st.text_input] returns. *)

#[warnings="-register-all"]
Inductive widget : Type :=
| title (body : string)
| file_uploader (label : string)
| success (body : string)
| subheader (body : string)
| write (args : list str)
| text_input (label : string)
| expander (label : string) (inside : list widget)
| warning (body : string).

Section Script.

Variables vec score : Type.
Variable encode : str -> vec.

Fixpoint pbind {A B : Type} (p : prog score A) (f : A -> prog score B)
  : prog score B :=
  match p with
  | Ret a => f a
  | Raise => Raise
  | Search question k cont =>
      Search question k (fun hits => pbind (cont hits) f)
  end.

(** [if answers: ... else: st.warning(...)] *)
Definition show_answers (answers : list (QueryResult score)) : list widget :=
  match answers with
  | first :: _ =>
      [ write [lit "**Answer:**"; answer first];
        expander "Show context" [write [context first]] ]
  | [] => [warning "No answer found."]
  end.

Definition script (uploaded_file : option (list (option str))) (user_q : str)
  : outcome (prog score (list widget)) :=
  let page := [ title "📄 Document Analyzer AI Agent";
                file_uploader "Upload a PDF file" ] in
  match uploaded_file with
  | None => Done (Ret page)
  | Some file =>
      let page := page ++ [success "PDF uploaded successfully!"] in
      chunks <- extract_and_chunk_pdf file ;;
      match chunks with
      | [] => Done (Ret page)
      | _ =>
          let embeddings := map encode chunks in
          let st :=
            {| index := VectorIndex.add (index (init vec)) embeddings;
               docs_meta := append_chunks (docs_meta (init vec)) chunks |} in
          let page :=
            page ++
            [ subheader "📌 Document Summary";
              write [summarize_doc (docs_meta st) 120];
              subheader "🔍 Ask Questions";
              text_input
                "Enter your question (e.g., 'What is the CGPA?', 'What is the email?')" ] in
          match user_q with
          | [] => Done (Ret page)
          | _ =>
              Done (pbind (query score (docs_meta st) user_q 5)
                      (fun answers => Ret (page ++ show_answers answers)))
          end
      end
  end.

End Script.

Arguments show_answers {score} answers.

Section Session.

Variable vec : Type.
Variable encode : str -> vec.

(** The two stores at the end of one run of the script.  Lines 20 and 21
    create them empty at the start of the run, and the upload block runs
    once, when a file is there. *)
Definition run_stores (uploaded_file : option (list (option str)))
  : outcome (State vec) :=
  match uploaded_file with
  | None => Done (init vec)
  | Some file => upload vec encode (init vec) file
  end.

(** A session: the script runs again for each file uploaded.  Every run
    creates its stores anew, so what the previous run left in [st] is not
    carried over. *)
Fixpoint session (st : State vec) (uploaded : list (list (option str)))
  : outcome (State vec) :=
  match uploaded with
  | [] => Done st
  | file :: rest => st' <- run_stores (Some file) ;; session st' rest
  end.

End Session.

(** [Lang r m]: [r] matches exactly the text [m], groups left aside. *)
Inductive Lang : regex -> str -> Prop :=
| LangEps : Lang Eps []
| LangSet p a : p a = true -> Lang (Set_ p) [a]
| LangCat r1 r2 m1 m2 :
    Lang r1 m1 -> Lang r2 m2 -> Lang (Cat r1 r2) (m1 ++ m2)
| LangAltL r1 r2 m : Lang r1 m -> Lang (Alt r1 r2) m
| LangAltR r1 r2 m : Lang r2 m -> Lang (Alt r1 r2) m
| LangRep p lo hi m :
    forallb p m = true -> (lo <= length m)%nat ->
    within hi (length m) = true -> Lang (Rep p lo hi) m
| LangOptSome r m : Lang r m -> Lang (Opt r) m
| LangOptNone r : Lang (Opt r) []
| LangGrp n r m : Lang r m -> Lang (Grp n r) m.

(** Every set of [r] treats [a] and [phi a] alike. *)
Fixpoint respects (phi : ascii -> ascii) (r : regex) : bool :=
  match r with
  | Eps => true
  | Set_ p | Rep p _ _ =>
      forallb (fun a => Bool.eqb (p (phi a)) (p a)) all_ascii
  | Cat r1 r2 | Alt r1 r2 => (respects phi r1 && respects phi r2)%bool
  | Opt r1 | Grp _ r1 => respects phi r1
  end.

(** The shape shared by the two GPA patterns: a label, optional whitespace
    and separator, and group 1 with the digits and an optional fraction. *)
Definition gpa_frac : regex :=
  Opt (Seq [chr "."%char; Rep digit 1 (Some 4%nat)]).

Definition gpa_like (label digits : regex) : regex :=
  Seq [ label; Star space; Maybe (one_of ":=-"); Star space;
        Grp 1 (Seq [digits; gpa_frac]) ].

(** [text.replace("\n", " ")] on one character. *)
Definition unbreak (c : ascii) : ascii :=
  if Ascii.eqb c "010"%char then " "%char else c.

(** The summary without its GPA line. *)
Definition summary_body (docs : list Chunk) (word_count : Z) : str :=
  let words := split (all_text docs) in
  join (lit " ") (slice words 0 word_count)
  ++ (if word_count <? len words then lit " ..." else []).

(** What may stand between the label and the digits of a GPA pattern. *)
Definition gpa_gap : regex :=
  Seq [Star space; Maybe (one_of ":=-"); Star space].

(** ** Facts about the Python primitives *)

Lemma len_nonneg {A : Type} (l : list A) : 0 <= len l.
Proof. unfold len. lia. Qed.

Lemma len_app {A : Type} (l1 l2 : list A) : len (l1 ++ l2) = len l1 + len l2.
Proof. unfold len. rewrite length_app. lia. Qed.

Lemma lstrip_length (s : str) : (length (lstrip s) <= length s)%nat.
Proof.
  induction s as [|c r IH]; simpl; [lia|].
  destruct (isspace c); simpl; lia.
Qed.

Lemma rstrip_length (s : str) : (length (rstrip s) <= length s)%nat.
Proof.
  induction s as [|c r IH]; simpl; [lia|].
  destruct (rstrip r) as [|c' r'].
  - destruct (isspace c); simpl; lia.
  - simpl in *. lia.
Qed.

Lemma strip_length (s : str) : (length (strip s) <= length s)%nat.
Proof.
  unfold strip. pose proof (rstrip_length (lstrip s)).
  pose proof (lstrip_length s). lia.
Qed.

Lemma lstrip_head (s : str) :
  match lstrip s with
  | [] => True
  | c :: _ => isspace c = false
  end.
Proof.
  induction s as [|c r IH]; simpl; [exact I|].
  destruct (isspace c) eqn:E; [exact IH | exact E].
Qed.

Lemma rstrip_head (c : ascii) (r : str) :
  isspace c = false -> exists r', rstrip (c :: r) = c :: r'.
Proof.
  intros Hc. simpl. destruct (rstrip r) as [|c' r'].
  - rewrite Hc. now exists [].
  - now exists (c' :: r').
Qed.

Lemma rstrip_last (s : str) (d : ascii) :
  rstrip s <> [] -> isspace (last (rstrip s) d) = false.
Proof.
  induction s as [|c r IH]; simpl; [congruence|].
  destruct (rstrip r) as [|c' r'] eqn:E.
  - destruct (isspace c) eqn:Ec; [congruence|]. intros _. exact Ec.
  - intros _. change (isspace (last (c' :: r') d) = false).
    apply IH. congruence.
Qed.

Lemma strip_trimmed (s : str) : trimmed (strip s) = true.
Proof.
  unfold strip. pose proof (lstrip_head s) as Hh.
  destruct (lstrip s) as [|c r] eqn:E; [reflexivity|].
  destruct (rstrip_head c r Hh) as [r' Hr].
  pose proof (rstrip_last (c :: r) c) as Hl.
  rewrite Hr in *. unfold trimmed. rewrite Hh.
  rewrite Hl by congruence. reflexivity.
Qed.

Lemma split_from_words (s : str) :
  forall cur,
    forallb (fun a => negb (isspace a)) cur = true ->
    Forall (fun w => w <> [] /\ forallb (fun a => negb (isspace a)) w = true)
      (split_from cur s).
Proof.
  assert (Hrev : forall c cur,
             forallb (fun a => negb (isspace a)) (c :: cur) = true ->
             rev (c :: cur) <> []
             /\ forallb (fun a => negb (isspace a)) (rev (c :: cur)) = true).
  { intros c cur H. split.
    - simpl. now destruct (rev cur).
    - rewrite forallb_forall in *. intros x Hx. apply H. now apply in_rev. }
  induction s as [|c r IH]; intros cur Hcur; simpl.
  - destruct cur as [|c cur]; constructor; [now apply Hrev | constructor].
  - destruct (isspace c) eqn:Ec.
    + destruct cur as [|c' cur]; [now apply IH|].
      constructor; [now apply Hrev | now apply IH].
    + apply IH. simpl. now rewrite Ec.
Qed.

(** The words of [s.split()] are non-empty and free of whitespace. *)
Lemma split_words (s : str) :
  Forall (fun w => w <> [] /\ forallb (fun a => negb (isspace a)) w = true)
    (split s).
Proof. apply split_from_words. reflexivity. Qed.

Lemma slice_length {A : Type} (l : list A) (a b : Z) :
  0 <= a <= b -> len (slice l a b) <= b - a.
Proof.
  intros H. unfold slice, len, clamp.
  rewrite length_firstn.
  destruct (a <? 0) eqn:Ea; [apply Z.ltb_lt in Ea; lia|].
  destruct (b <? 0) eqn:Eb; [apply Z.ltb_lt in Eb; lia|].
  lia.
Qed.

Lemma slice_prefix {A : Type} (l : list A) (n : Z) :
  0 <= n -> slice l 0 n = firstn (Z.to_nat n) l.
Proof.
  intros H. unfold slice, clamp.
  destruct (n <? 0) eqn:En; [apply Z.ltb_lt in En; lia|].
  change (0 <? 0) with false. cbv iota.
  assert (E0 : Z.min 0 (len l) = 0) by (pose proof (len_nonneg l); lia).
  rewrite E0. simpl skipn. rewrite Z.sub_0_r.
  unfold len.
  destruct (Z.le_ge_cases n (Z.of_nat (length l))) as [Hle|Hge].
  - rewrite Z.min_l by lia. reflexivity.
  - rewrite Z.min_r by lia. rewrite Nat2Z.id.
    rewrite !firstn_all2; auto; lia.
Qed.

Lemma index_in_range {A : Type} (l : list A) (i : Z) :
  0 <= i < len l -> exists x, Py.index l i = Some x.
Proof.
  intros H. unfold Py.index.
  replace ((0 <=? i) && (i <? len l))%bool with true
    by (symmetry; apply andb_true_iff; split;
        [apply Z.leb_le | apply Z.ltb_lt]; lia).
  destruct (nth_error l (Z.to_nat i)) eqn:E; [eauto|].
  apply nth_error_None in E. unfold len in H. lia.
Qed.

(** ** The chunker *)

Section ChunkerFacts.

Variables chunk_size overlap : Z.

Lemma snap_range (text : str) (n : nat) (e x e' : Z) :
  snap text n e x = Done e' -> e <= e' <= Z.max e x.
Proof.
  revert e. induction n as [|n IH]; intros e H; simpl in H.
  - inversion H; subst. lia.
  - destruct (e <? x) eqn:Ex.
    + apply Z.ltb_lt in Ex.
      destruct (Py.index text e) as [c|]; [|discriminate].
      destruct (isspace c).
      * inversion H; subst. lia.
      * apply IH in H. lia.
    + inversion H; subst. lia.
Qed.

Lemma snap_done (text : str) (n : nat) (e x : Z) :
  0 <= e -> x <= len text -> exists e', snap text n e x = Done e'.
Proof.
  revert e. induction n as [|n IH]; intros e He Hx; simpl; [eauto|].
  destruct (e <? x) eqn:Ex; [|eauto].
  apply Z.ltb_lt in Ex.
  destruct (index_in_range text e) as [c Hc]; [lia|].
  rewrite Hc. destruct (isspace c); [eauto|].
  apply IH; lia.
Qed.

Lemma snap_terminates (text : str) (n : nat) (e x : Z) :
  snap text n e x <> OutOfFuel.
Proof.
  revert e. induction n as [|n IH]; intros e; simpl; [discriminate|].
  destruct (e <? x); [|discriminate].
  destruct (Py.index text e) as [c|]; [|discriminate].
  destruct (isspace c); [discriminate | apply IH].
Qed.

Lemma window_terminates (text : str) (start : Z) :
  window chunk_size overlap text start <> OutOfFuel.
Proof.
  unfold window. destruct (start + chunk_size <? len text); [|discriminate].
  destruct (snap text _ _ _) eqn:E; simpl; try discriminate.
  now apply snap_terminates in E.
Qed.

(** An iteration that completes moves [start] forward by at least
    [chunk_size - overlap]. *)
Lemma window_advance (text : str) (start start' : Z) (chunk : str) :
  window chunk_size overlap text start = Done (start', chunk) ->
  start + (chunk_size - overlap) <= start'.
Proof.
  unfold window. destruct (start + chunk_size <? len text).
  - destruct (snap text _ _ _) as [e'| |] eqn:E; simpl; try discriminate.
    intros H. inversion H; subst. apply snap_range in E. lia.
  - intros H. inversion H; subst. lia.
Qed.

Lemma window_trimmed (text : str) (start start' : Z) (chunk : str) :
  window chunk_size overlap text start = Done (start', chunk) ->
  trimmed chunk = true.
Proof.
  unfold window. destruct (start + chunk_size <? len text).
  - destruct (snap text _ _ _) as [e'| |]; simpl; try discriminate.
    intros H. inversion H; subst. apply strip_trimmed.
  - intros H. inversion H; subst. apply strip_trimmed.
Qed.

(** With sizes in order and [start] inside the text, an iteration completes;
    its window ends at most 50 characters after [start + chunk_size], and
    not after the end of the text when it was extended. *)
Lemma window_done (text : str) (start : Z) :
  0 <= overlap < chunk_size -> 0 <= start ->
  exists e chunk,
    window chunk_size overlap text start = Done (e - overlap, chunk)
    /\ start + chunk_size <= e <= start + chunk_size + 50
    /\ (start + chunk_size < len text -> e <= len text)
    /\ len chunk <= chunk_size + 50.
Proof.
  intros Hc Hs. unfold window.
  destruct (start + chunk_size <? len text) eqn:E.
  - apply Z.ltb_lt in E.
    set (x := Z.min (len text) (start + chunk_size + 50)).
    destruct (snap_done text (Z.to_nat (x - (start + chunk_size)))
                (start + chunk_size) x) as [e' He']; [lia | lia |].
    rewrite He'. simpl. pose proof (snap_range _ _ _ _ _ He') as Hr.
    exists e', (strip (slice text start e')).
    split; [reflexivity|]. split; [lia|]. split; [lia|].
    pose proof (strip_length (slice text start e')) as H1.
    pose proof (slice_length text start e') as H2.
    unfold len in *. lia.
  - apply Z.ltb_ge in E.
    exists (start + chunk_size), (strip (slice text start (start + chunk_size))).
    split; [reflexivity|]. split; [lia|]. split; [lia|].
    pose proof (strip_length (slice text start (start + chunk_size))) as H1.
    pose proof (slice_length text start (start + chunk_size)) as H2.
    unfold len in *. lia.
Qed.

(** Fuel the length of what is left of the text is never used up. *)
Lemma chunk_loop_fuel (text : str) :
  overlap < chunk_size ->
  forall fuel start acc,
    (Z.to_nat (len text - start) <= fuel)%nat ->
    chunk_loop chunk_size overlap fuel text start acc <> OutOfFuel.
Proof.
  intros Hc. induction fuel as [|fuel IH]; intros start acc Hf; simpl.
  - destruct (start <? len text) eqn:E; [|discriminate].
    apply Z.ltb_lt in E. lia.
  - destruct (start <? len text) eqn:E; [|discriminate].
    apply Z.ltb_lt in E.
    destruct (window chunk_size overlap text start) as [[s' c]| |] eqn:W;
      simpl; try discriminate.
    + apply window_advance in W. apply IH. lia.
    + now apply window_terminates in W.
Qed.

Lemma chunk_loop_done (text : str) :
  0 <= overlap < chunk_size ->
  forall fuel start acc,
    0 <= start ->
    (Z.to_nat (len text - start) <= fuel)%nat ->
    exists new,
      chunk_loop chunk_size overlap fuel text start acc = Done (acc ++ new)
      /\ Forall (fun c => trimmed c = true /\ len c <= chunk_size + 50) new
      /\ (start < len text -> (1 <= length new)%nat).
Proof.
  intros Hc. induction fuel as [|fuel IH]; intros start acc Hs Hf; simpl.
  - destruct (start <? len text) eqn:E.
    + apply Z.ltb_lt in E. lia.
    + apply Z.ltb_ge in E. exists []. rewrite app_nil_r.
      repeat split; [constructor | lia].
  - destruct (start <? len text) eqn:E.
    + apply Z.ltb_lt in E.
      destruct (window_done text start Hc Hs) as (e & c & W & He & _ & Hl).
      rewrite W. simpl.
      destruct (IH (e - overlap) (acc ++ [c])) as (new & Hn & Hall & _);
        [lia | lia |].
      exists (c :: new). rewrite Hn, <- app_assoc. simpl.
      repeat split; [|simpl; lia].
      constructor; [|exact Hall].
      split; [exact (window_trimmed _ _ _ _ W) | exact Hl].
    + apply Z.ltb_ge in E. exists []. rewrite app_nil_r.
      repeat split; [constructor | lia].
Qed.

(** More fuel than needed does not change the result. *)
Lemma chunk_loop_more_fuel (text : str) :
  forall fuel fuel' start acc r,
    chunk_loop chunk_size overlap fuel text start acc = Done r ->
    (fuel <= fuel')%nat ->
    chunk_loop chunk_size overlap fuel' text start acc = Done r.
Proof.
  induction fuel as [|fuel IH]; intros fuel' start acc r H Hle; simpl in H.
  - destruct fuel'; simpl; destruct (start <? len text); congruence.
  - destruct fuel' as [|fuel']; [lia|]. simpl.
    destruct (start <? len text); [|exact H].
    destruct (window chunk_size overlap text start) as [[s' c]| |];
      simpl in *; try discriminate.
    apply IH with (fuel' := fuel') in H; [exact H | lia].
Qed.

End ChunkerFacts.

Lemma chunk_loop_acc (chunk_size overlap : Z) (text : str) :
  forall fuel start acc,
    chunk_loop chunk_size overlap fuel text start acc =
    (new <- chunk_loop chunk_size overlap fuel text start [] ;;
     Done (acc ++ new)).
Proof.
  induction fuel as [|fuel IH]; intros start acc; simpl.
  - destruct (start <? len text); simpl; [reflexivity|].
    now rewrite app_nil_r.
  - destruct (start <? len text); simpl; [|now rewrite app_nil_r].
    destruct (window chunk_size overlap text start) as [[s' c]| |];
      simpl; try reflexivity.
    rewrite (IH s' (acc ++ [c])), (IH s' [c]).
    destruct (chunk_loop chunk_size overlap fuel text s' []);
      simpl; try reflexivity.
    now rewrite <- app_assoc.
Qed.

Lemma sizes_in_order : 0 <= OVERLAP < CHUNK_SIZE.
Proof. unfold OVERLAP, CHUNK_SIZE. lia. Qed.

(** The page loop always returns, and adds only trimmed chunks. *)
Lemma page_loop_done (pages : list (option str)) :
  forall acc,
    exists new,
      page_loop pages acc = Done (acc ++ new)
      /\ Forall (fun c => trimmed c = true) new.
Proof.
  induction pages as [|page rest IH]; intros acc; simpl.
  - exists []. rewrite app_nil_r. split; [reflexivity | constructor].
  - destruct (strip match page with Some t => t | None => [] end)
      as [|c r] eqn:E; [apply IH|].
    destruct (chunk_loop_done CHUNK_SIZE OVERLAP (c :: r) sizes_in_order
                (length (c :: r)) 0 acc) as (new & Hn & Hall & _);
      [lia | unfold len; lia |].
    rewrite Hn. simpl.
    assert (Hall' : Forall (fun c => trimmed c = true) new).
    { eapply Forall_impl; [|exact Hall]. now intros a [Ha _]. }
    destruct (2000 <? len (acc ++ new)).
    + now exists new.
    + destruct (IH (acc ++ new)) as (new' & Hn' & Hall'').
      exists (new ++ new'). rewrite Hn', app_assoc.
      split; [reflexivity|]. apply Forall_app. now split.
Qed.

Lemma extract_and_chunk_pdf_done (file : list (option str)) :
  exists chunks,
    extract_and_chunk_pdf file = Done chunks
    /\ Forall (fun c => trimmed c = true) chunks.
Proof.
  unfold extract_and_chunk_pdf.
  destruct (page_loop_done file []) as (new & H & Hall).
  now exists new.
Qed.

(** ** The upload block *)

Lemma append_chunks_numbered (docs : list Chunk) (chunks : list str) :
  append_chunks docs chunks = docs ++ numbered chunks.
Proof.
  unfold append_chunks, numbered, enumerate. generalize 0.
  revert docs. induction chunks as [|c cs IH]; intros docs i; simpl.
  - now rewrite app_nil_r.
  - rewrite IH, <- app_assoc. reflexivity.
Qed.

Lemma enumerate_from_nth {A : Type} (l : list A) :
  forall i j p, nth_error (enumerate_from i l) j = Some p ->
                fst p = i + Z.of_nat j /\ nth_error l j = Some (snd p).
Proof.
  induction l as [|x l IH]; intros i j p H.
  - destruct j; discriminate.
  - destruct j as [|j]; simpl in H.
    + inversion H; subst. simpl. split; [lia | reflexivity].
    + apply IH in H. simpl. split; [lia | tauto].
Qed.

Lemma enumerate_from_snd {A : Type} (l : list A) :
  forall i, map snd (enumerate_from i l) = l.
Proof.
  induction l as [|x l IH]; intros i; simpl; [reflexivity|].
  now rewrite IH.
Qed.

Lemma numbered_text (chunks : list str) : map text (numbered chunks) = chunks.
Proof.
  unfold numbered, enumerate. rewrite map_map. simpl.
  apply enumerate_from_snd.
Qed.

Lemma numbered_ids (chunks : list str) : ids_are_positions (numbered chunks).
Proof.
  intros i c H. unfold numbered in H.
  rewrite nth_error_map in H.
  destruct (nth_error (enumerate chunks) i) as [p|] eqn:E; [|discriminate].
  inversion H; subst. simpl.
  apply enumerate_from_nth in E. lia.
Qed.

Section UploadFacts.

Variable vec : Type.
Variable encode : str -> vec.

(** What one upload does to the two stores. *)
Lemma upload_done (st : State vec) (file : list (option str)) :
  exists chunks,
    extract_and_chunk_pdf file = Done chunks
    /\ Forall (fun c => trimmed c = true) chunks
    /\ exists st',
         upload vec encode st file = Done st'
         /\ index st' = index st ++ map encode chunks
         /\ docs_meta st' = docs_meta st ++ numbered chunks.
Proof.
  destruct (extract_and_chunk_pdf_done file) as (chunks & He & Hall).
  exists chunks. split; [exact He|]. split; [exact Hall|].
  unfold upload. rewrite He. simpl.
  destruct chunks as [|c cs].
  - exists st. now rewrite !app_nil_r.
  - eexists. split; [reflexivity|]. simpl.
    split; [reflexivity | apply append_chunks_numbered].
Qed.

Lemma uploads_done (files : list (list (option str))) :
  forall st,
    exists st',
      uploads vec encode st files = Done st'
      /\ index st' = index st ++ map encode (concat (map chunks_of files))
      /\ docs_meta st' =
         docs_meta st ++ concat (map (fun f => numbered (chunks_of f)) files)
      /\ Forall (fun c => trimmed c = true) (concat (map chunks_of files)).
Proof.
  induction files as [|f rest IH]; intros st; simpl.
  - exists st. rewrite !app_nil_r. repeat split. constructor.
  - destruct (upload_done st f) as (chunks & He & Hall & st1 & Hu & Hi & Hd).
    rewrite Hu. simpl.
    destruct (IH st1) as (st' & Hus & Hi' & Hd' & Hall').
    assert (Hc : chunks_of f = chunks) by (unfold chunks_of; now rewrite He).
    exists st'. rewrite Hc.
    split; [exact Hus|]. split; [|split].
    + rewrite Hi', Hi, map_app, app_assoc. reflexivity.
    + rewrite Hd', Hd, app_assoc. reflexivity.
    + apply Forall_app. now split.
Qed.

End UploadFacts.

(** ** The matcher is sound for [Sem] *)

Lemma count_firstn (p : ascii -> bool) :
  forall s hi j,
    (j <= count p hi s)%nat ->
    forallb p (firstn j s) = true
    /\ length (firstn j s) = j
    /\ within hi j = true.
Proof.
  induction s as [|a s IH]; intros hi j Hj; simpl in Hj.
  - assert (j = O) by lia. subst. simpl.
    repeat split. destruct hi; reflexivity.
  - destruct j as [|j].
    + simpl. repeat split. destruct hi; reflexivity.
    + destruct (p a) eqn:Ea; simpl in Hj; [|lia].
      destruct (within hi 1) eqn:Eh; [|lia].
      destruct (IH (option_map Nat.pred hi) j) as (H1 & H2 & H3); [lia|].
      simpl. rewrite Ea, H1, H2. repeat split.
      destruct hi as [h|]; [|reflexivity].
      unfold within, option_map in *.
      apply Nat.leb_le in Eh, H3. apply Nat.leb_le. lia.
Qed.

Lemma try_down_some {R : Type} (f : nat -> option R) (lo : nat) (x : R) :
  forall i, try_down i lo f = Some x ->
            exists j, (lo <= j <= i)%nat /\ f j = Some x.
Proof.
  induction i as [|i IH]; simpl; intros H.
  - destruct (Nat.ltb 0 lo) eqn:E; [discriminate|].
    apply Nat.ltb_ge in E. destruct (f O) eqn:F; [|discriminate].
    exists O. split; [lia | congruence].
  - destruct (Nat.ltb (S i) lo) eqn:E; [discriminate|].
    apply Nat.ltb_ge in E. destruct (f (S i)) eqn:F.
    + exists (S i). split; [lia | congruence].
    + destruct (IH H) as (j & Hj & Fj). exists j. split; [lia | exact Fj].
Qed.

Lemma run_sound {R : Type} (r : regex) :
  forall (s : str) (c : caps) (k : str -> str -> caps -> option R) (x : R),
    run r s c k = Some x ->
    exists m s' c', s = m ++ s' /\ Sem r m c c' /\ k m s' c' = Some x.
Proof.
  induction r as [ | p | r1 IH1 r2 IH2 | r1 IH1 r2 IH2 | p lo hi
                 | r1 IH1 | n r1 IH1 ]; intros s c k x H; simpl in H.
  - exists [], s, c. repeat split; [constructor | exact H].
  - destruct s as [|a s']; [discriminate|].
    destruct (p a) eqn:E; [|discriminate].
    exists [a], s', c. repeat split; [now constructor | exact H].
  - apply IH1 in H. destruct H as (m1 & s1 & c1 & Hs & S1 & H).
    apply IH2 in H. destruct H as (m2 & s2 & c2 & Hs2 & S2 & H).
    exists (m1 ++ m2), s2, c2. subst. rewrite <- app_assoc.
    repeat split; [econstructor; eassumption | exact H].
  - destruct (run r1 s c k) eqn:E.
    + inversion H; subst. apply IH1 in E.
      destruct E as (m & s' & c' & Hs & S1 & Hk).
      exists m, s', c'. repeat split; [exact Hs | now apply SemAltL | exact Hk].
    + apply IH2 in H. destruct H as (m & s' & c' & Hs & S2 & Hk).
      exists m, s', c'. repeat split; [exact Hs | now apply SemAltR | exact Hk].
  - apply try_down_some in H. destruct H as (j & Hj & Hk).
    destruct (count_firstn p s hi j) as (H1 & H2 & H3); [lia|].
    exists (firstn j s), (skipn j s), c.
    split; [symmetry; apply firstn_skipn|]. split; [|exact Hk].
    constructor; [exact H1 | lia | now rewrite H2].
  - destruct (run r1 s c k) eqn:E.
    + inversion H; subst. apply IH1 in E.
      destruct E as (m & s' & c' & Hs & S1 & Hk).
      exists m, s', c'.
      repeat split; [exact Hs | now apply SemOptSome | exact Hk].
    + exists [], s, c. repeat split; [apply SemOptNone | exact H].
  - apply IH1 in H. destruct H as (m & s' & c' & Hs & S1 & Hk).
    exists m, s', ((n, m) :: c').
    repeat split; [exact Hs | now constructor | exact Hk].
Qed.

Lemma search_sound (r : regex) :
  forall s m, search r s = Some m -> Sem r (whole m) [] (groups m).
Proof.
  induction s as [|a s IH]; intros m H; simpl in H.
  - destruct (match_here r []) eqn:E; [|discriminate].
    inversion H; subst. unfold match_here in E. apply run_sound in E.
    destruct E as (m' & s' & c' & _ & S1 & Hk). inversion Hk; subst. exact S1.
  - destruct (match_here r (a :: s)) eqn:E; [|now apply IH].
    inversion H; subst. unfold match_here in E. apply run_sound in E.
    destruct E as (m' & s' & c' & _ & S1 & Hk). inversion Hk; subst. exact S1.
Qed.

(** ** The static checks are sound *)

Lemma all_ascii_complete (a : ascii) : In a all_ascii.
Proof.
  unfold all_ascii. rewrite <- (ascii_nat_embedding a).
  apply in_map, in_seq. pose proof (nat_ascii_bounded a). lia.
Qed.

Lemma subset_sound (p P : ascii -> bool) (a : ascii) :
  subset p P = true -> p a = true -> P a = true.
Proof.
  unfold subset. rewrite forallb_forall. intros H Hp.
  specialize (H a (all_ascii_complete a)). now rewrite Hp in H.
Qed.

Lemma sem_nullable (r : regex) (m : str) (c c' : caps) :
  Sem r m c c' -> m = [] -> nullable r = true.
Proof.
  induction 1; intros Hm; simpl; auto; try discriminate.
  - apply app_eq_nil in Hm. destruct Hm. rewrite IHSem1, IHSem2; auto.
  - rewrite IHSem; auto.
  - rewrite IHSem; auto. apply orb_true_r.
  - subst. simpl in *. apply Nat.eqb_eq. lia.
Qed.

Lemma sem_first (P : ascii -> bool) (r : regex) (m : str) (c c' : caps) :
  Sem r m c c' -> first_ok P r = true ->
  match m with [] => True | a :: _ => P a = true end.
Proof.
  induction 1; simpl; intros Hf; auto.
  - eapply subset_sound; eassumption.
  - apply andb_true_iff in Hf. destruct Hf as [Hf1 Hf2].
    destruct m1 as [|a m1]; simpl.
    + rewrite (sem_nullable _ _ _ _ H eq_refl) in Hf2. exact (IHSem2 Hf2).
    + exact (IHSem1 Hf1).
  - apply andb_true_iff in Hf. now apply IHSem.
  - apply andb_true_iff in Hf. now apply IHSem.
  - destruct m as [|a m]; [exact I|]. simpl in H.
    apply andb_true_iff in H. eapply subset_sound; [eassumption | tauto].
  - exact (IHSem Hf).
  - exact (IHSem Hf).
Qed.

Lemma sem_starts_with (P : ascii -> bool) (r : regex) (m : str) (c c' : caps) :
  Sem r m c c' -> starts_with P r = true -> headed P m.
Proof.
  intros HS H. unfold starts_with in H. apply andb_true_iff in H.
  destruct H as [Hn Hf]. pose proof (sem_first P _ _ _ _ HS Hf) as H1.
  destruct m as [|a m].
  - rewrite (sem_nullable _ _ _ _ HS eq_refl) in Hn. discriminate.
  - now exists a, m.
Qed.

Lemma sem_groups (P : ascii -> bool) (n : nat) (r : regex) (m : str)
    (c c' : caps) :
  Sem r m c c' ->
  groups_ok (starts_with P) n r = true ->
  (forall g, lookup n c = Some g -> headed P g) ->
  forall g, lookup n c' = Some g -> headed P g.
Proof.
  induction 1; simpl; intros Hg Hc; auto.
  - apply andb_true_iff in Hg. destruct Hg. auto.
  - apply andb_true_iff in Hg. destruct Hg. auto.
  - apply andb_true_iff in Hg. destruct Hg. auto.
  - apply andb_true_iff in Hg. destruct Hg as [Hg1 Hg2].
    intros g Hl. destruct (Nat.eqb n n0) eqn:E.
    + inversion Hl; subst. eapply sem_starts_with; eassumption.
    + eapply IHSem; eassumption.
Qed.

Lemma sem_keeps (n : nat) (r : regex) (m : str) (c c' : caps) :
  Sem r m c c' -> lookup n c <> None -> lookup n c' <> None.
Proof.
  induction 1; simpl; auto.
  intros Hc. destruct (Nat.eqb n n0); [discriminate | auto].
Qed.

Lemma sem_sets (n : nat) (r : regex) (m : str) (c c' : caps) :
  Sem r m c c' -> sets n r = true -> lookup n c' <> None.
Proof.
  induction 1; simpl; intros Hs; try discriminate.
  - apply orb_true_iff in Hs. destruct Hs as [Hs|Hs].
    + eapply sem_keeps; eauto.
    + auto.
  - apply andb_true_iff in Hs. destruct Hs. auto.
  - apply andb_true_iff in Hs. destruct Hs. auto.
  - destruct (Nat.eqb n n0) eqn:E; [discriminate|]. simpl in Hs. auto.
Qed.

(** ** The field extractor *)

Lemma strip_headed (g : str) : headed nonspace g -> headed nonspace (strip g).
Proof.
  intros (a & g' & Hg & Ha). subst. unfold nonspace in Ha.
  apply negb_true_iff in Ha. unfold strip. simpl lstrip. rewrite Ha.
  destruct (rstrip_head a g' Ha) as [r' Hr]. rewrite Hr.
  exists a, r'. split; [reflexivity|]. unfold nonspace. now rewrite Ha.
Qed.

(** Group 1 of a match of [r], when every group 1 in [r] starts with a
    character that is not whitespace. *)
Lemma search_group1_headed (r : regex) (t : str) (m : match_) (g : str) :
  groups_ok (starts_with nonspace) 1 r = true ->
  search r t = Some m -> group 1 m = Some g -> headed nonspace g.
Proof.
  intros Hok Hs Hg. apply search_sound in Hs.
  eapply (sem_groups nonspace 1); try eassumption.
  simpl. discriminate.
Qed.

Lemma search_whole_headed (r : regex) (t : str) (m : match_) :
  starts_with nonspace r = true ->
  search r t = Some m -> headed nonspace (whole m).
Proof.
  intros Hok Hs. apply search_sound in Hs.
  eapply sem_starts_with; eassumption.
Qed.

(** The groups the program reads with [m.group(1)] take part in every
    match of their pattern. *)
Lemma group1_participates (r : regex) (t : str) (m : match_) :
  In r [IGNORECASE NAME_RE; IGNORECASE SEMESTER_RE; IGNORECASE GPA_RE;
        IGNORECASE SUMMARY_GPA_RE] ->
  search r t = Some m -> group 1 m <> None.
Proof.
  intros Hin Hs. apply search_sound in Hs.
  eapply (sem_sets 1); [exact Hs|].
  simpl in Hin.
  destruct Hin as [<-|[<-|[<-|[<-|[]]]]]; vm_compute; reflexivity.
Qed.

(** Open the [search] under [grp] in [H]; the no-match case is absurd. *)
Ltac open_search H m E :=
  match type of H with
  | context [search ?r ?t] =>
      destruct (search r t) as [m|] eqn:E; [|discriminate H]
  end.

Ltac open_group1 H m g G :=
  destruct (group 1 m) as [g|] eqn:G; [|discriminate H];
  inversion H; subst; clear H.

(** Apply a lemma whose first premise is a static check on the pattern. *)
Ltac by_check lem := eapply lem; [|eassumption ..]; vm_compute; reflexivity.

(** Whatever a category extracts starts with a character that is not
    whitespace; in particular it is not the empty string. *)
Lemma extract_headed (f : Field) (t a : str) :
  extract f t = Some a -> headed nonspace a.
Proof.
  destruct f; unfold extract, grp; intros H; open_search H m E.
  - open_group1 H m g G. apply strip_headed.
    by_check search_group1_headed.
  - open_group1 H m g G. apply strip_headed.
    by_check search_group1_headed.
  - open_group1 H m g G. unfold id.
    by_check search_group1_headed.
  - inversion H; subst. unfold id. by_check search_whole_headed.
  - inversion H; subst. apply strip_headed. by_check search_whole_headed.
  - inversion H; subst. unfold id. by_check search_whole_headed.
Qed.

Lemma extract_empty (f : Field) : extract f [] = None.
Proof. destruct f; vm_compute; reflexivity. Qed.

Lemma extract_field_attempts (question text : str) :
  _extract_field_from_text question text =
  attempts priority (lower question) (replace "010"%char " "%char text).
Proof. reflexivity. Qed.

Lemma attempts_some (q t a : str) :
  forall fs,
    attempts fs q t = Some a <->
    exists earlier f later,
      fs = earlier ++ f :: later
      /\ keyword f q = true
      /\ extract f t = Some a
      /\ forall f', In f' earlier -> keyword f' q = true -> extract f' t = None.
Proof.
  induction fs as [|f fs IH]; simpl.
  - split; [discriminate|].
    intros (earlier & f & later & H & _). now destruct earlier.
  - unfold attempt. split.
    + intros H.
      destruct (keyword f q) eqn:K; [destruct (extract f t) as [a'|] eqn:E|].
      * exists [], f, fs. inversion H; subst. repeat split; auto.
        intros f' [].
      * apply IH in H. destruct H as (earlier & f0 & later & -> & K0 & E0 & H).
        exists (f :: earlier), f0, later. repeat split; auto.
        intros f' [<-|Hin] Kf; auto.
      * apply IH in H. destruct H as (earlier & f0 & later & -> & K0 & E0 & H).
        exists (f :: earlier), f0, later. repeat split; auto.
        intros f' [<-|Hin] Kf; [congruence | auto].
    + intros (earlier & f0 & later & Hfs & K0 & E0 & H).
      destruct earlier as [|f1 earlier]; simpl in Hfs; inversion Hfs; subst.
      * now rewrite K0, E0.
      * assert (Hrest : attempts (earlier ++ f0 :: later) q t = Some a).
        { apply IH. exists earlier, f0, later. repeat split; auto.
          intros f' Hin. apply H. now right. }
        destruct (keyword f1 q) eqn:K; [|exact Hrest].
        rewrite (H f1 (or_introl eq_refl) K). exact Hrest.
Qed.

Lemma attempts_none (q t : str) :
  forall fs,
    attempts fs q t = None <->
    forall f, In f fs -> keyword f q = true -> extract f t = None.
Proof.
  induction fs as [|f fs IH]; simpl.
  - split; [intros _ f [] | reflexivity].
  - unfold attempt. split.
    + intros H f' [<-|Hin] K.
      * rewrite K in H. now destruct (extract f t).
      * destruct (keyword f q); [destruct (extract f t); [discriminate|]|];
          now apply IH.
    + intros H. assert (Hrest : attempts fs q t = None).
      { apply IH. intros f' Hin. apply H. now right. }
      destruct (keyword f q) eqn:K; [|exact Hrest].
      now rewrite (H f (or_introl eq_refl) K).
Qed.

Lemma attempts_first_keyword (q t a : str) (f : Field) :
  forall fs,
    find (fun g => keyword g q) fs = Some f ->
    extract f t = Some a ->
    attempts fs q t = Some a.
Proof.
  induction fs as [|g fs IH]; simpl; [discriminate|].
  unfold attempt. intros Hf He. destruct (keyword g q).
  - inversion Hf; subst. now rewrite He.
  - now apply IH.
Qed.

Lemma priority_complete (f : Field) : In f priority.
Proof. destruct f; simpl; tauto. Qed.

Lemma extract_field_headed (question text a : str) :
  _extract_field_from_text question text = Some a -> headed nonspace a.
Proof.
  rewrite extract_field_attempts. intros H. apply attempts_some in H.
  destruct H as (_ & f & _ & _ & _ & E & _). eapply extract_headed; exact E.
Qed.

Lemma extract_field_empty (question : str) :
  _extract_field_from_text question [] = None.
Proof.
  rewrite extract_field_attempts. apply attempts_none.
  intros f _ _. apply extract_empty.
Qed.

Lemma truthy_headed (P : ascii -> bool) (a : str) :
  headed P a -> truthy (Some a) = Some a.
Proof. intros (c & r & -> & _). reflexivity. Qed.

(** ** The vector index *)








(** ** The stores after uploads *)

Lemma numbered_texts_concat (files : list (list (option str))) :
  map text (concat (map (fun f => numbered (chunks_of f)) files)) =
  concat (map chunks_of files).
Proof.
  induction files as [|f rest IH]; simpl; [reflexivity|].
  now rewrite map_app, numbered_text, IH.
Qed.

(** ** [query] and [summarize_doc] *)

(** A hit whose row is at or beyond the end of the store adds no result. *)
Lemma results_loop_skips_beyond (score : Type) (docs : list Chunk)
    (question : str) (sc : score) (idx : Z) (rest : list (score * Z))
    (results : list (QueryResult score)) :
  len docs <= idx ->
  results_loop score docs question ((sc, idx) :: rest) results =
  results_loop score docs question rest results.
Proof.
  intros H. simpl. destruct (idx <? len docs) eqn:E; [|reflexivity].
  apply Z.ltb_lt in E. lia.
Qed.

Lemma summary_gpa_empty : search (IGNORECASE SUMMARY_GPA_RE) [] = None.
Proof. vm_compute. reflexivity. Qed.

(** ** The examples of the spec *)

Example extract_cgpa :
  _extract_field_from_text (lit "What is the CGPA?")
    (lit "Name: Asha CGPA: 8.75 Semester: 6") = Some (lit "8.75").
Proof. vm_compute. reflexivity. Qed.

Example extract_email :
  _extract_field_from_text (lit "What is the email?")
    (lit "Contact: asha@example.com") = Some (lit "asha@example.com").
Proof. vm_compute. reflexivity. Qed.

Example summarize_five_words :
  summarize_doc (store_of ["one two three four five six seven"]%string) 5
  = lit "one two three four five ...".
Proof. vm_compute. reflexivity. Qed.

Example chunk_blank_page :
  extract_and_chunk_pdf [Some []] = Done []
  /\ extract_and_chunk_pdf [Some (lit "   ")] = Done []
  /\ extract_and_chunk_pdf [None] = Done [].
Proof. repeat split; vm_compute; reflexivity. Qed.

(** * The claims *)

(** ** The field extractor: dispatch *)

(** C1, as the code has it.  The categories are tried in the order name,
    semester, GPA, email, phone, GitHub.  The value returned is the
    extraction of the first category whose keyword occurs in the question
    and whose pattern matches the text: a category whose keyword occurs but
    whose pattern fails is passed over and the later ones are still tried.
    So when the first keyword category matches, it wins, and [None] is
    returned exactly when no category with a keyword in the question
    matches. *)
Theorem extract_field_first_successful_category (question text : str) :
  let q := lower question in
  let t := replace "010"%char " "%char text in
  (forall a,
      _extract_field_from_text question text = Some a <->
      exists earlier f later,
        priority = earlier ++ f :: later
        /\ keyword f q = true
        /\ extract f t = Some a
        /\ forall f', In f' earlier -> keyword f' q = true ->
                      extract f' t = None)
  /\ (_extract_field_from_text question text = None <->
      forall f, keyword f q = true -> extract f t = None)
  /\ (forall f a,
        first_category q = Some f -> extract f t = Some a ->
        _extract_field_from_text question text = Some a).
Proof.
  intros q t. rewrite extract_field_attempts. fold q t.
  split; [|split].
  - intros a. apply attempts_some.
  - rewrite attempts_none. split.
    + intros H f. apply H, priority_complete.
    + intros H f _. apply H.
  - intros f a Hf He. eapply attempts_first_keyword; eassumption.
Qed.

Lemma extract_field_first_successful_category_witness :
  _extract_field_from_text (lit "What is the CGPA?")
    (lit "Name: Asha CGPA: 8.75 Semester: 6") = Some (lit "8.75").
Proof.
  destruct (extract_field_first_successful_category
              (lit "What is the CGPA?")
              (lit "Name: Asha CGPA: 8.75 Semester: 6")) as (_ & _ & H).
  apply (H GPA); vm_compute; reflexivity.
Defined.

(** C1 as stated fails: the question holds the keywords of two categories,
    the first one, name, has no match in the text, and the extractor goes on
    to the email category instead of returning [None]. *)
Lemma no_fallback_fails_on_name_and_email :
  first_category (lower (lit "name and email")) = Some Name
  /\ extract Name (replace "010"%char " "%char (lit "x@y.io")) = None
  /\ _extract_field_from_text (lit "name and email") (lit "x@y.io")
     = Some (lit "x@y.io").
Proof. repeat split; vm_compute; reflexivity. Qed.

(** ** The two stores *)

(** C2.  After every sequence of uploads, each one handled by a run of the
    script, the run ends, the id of every chunk in the store is its position
    there, and row [i] of the index is the embedding of the text of chunk
    [i]. *)
Theorem session_keeps_ids_and_rows_in_step (vec : Type) (encode : str -> vec)
    (uploaded : list (list (option str))) :
  exists st,
    session vec encode (init vec) uploaded = Done st
    /\ ids_are_positions (docs_meta st)
    /\ aligned encode st.
Proof.
  assert (Hany : forall st0,
    ids_are_positions (docs_meta st0) /\ aligned encode st0 ->
    exists st,
      session vec encode st0 uploaded = Done st
      /\ ids_are_positions (docs_meta st)
      /\ aligned encode st).
  { induction uploaded as [|file rest IH]; intros st0 Hst.
    - exists st0. split; [reflexivity | exact Hst].
    - destruct (upload_done vec encode (init vec) file)
        as (chunks & _ & _ & st1 & Hu & Hi & Hd).
      cbn [session run_stores]. rewrite Hu. cbn [obind].
      apply IH. simpl in Hi, Hd. split.
      + rewrite Hd. apply numbered_ids.
      + unfold aligned. rewrite Hi, Hd.
        rewrite <- (map_map text encode), numbered_text. reflexivity. }
  apply Hany. split; [|reflexivity].
  intros i c H. destruct i; discriminate.
Qed.

(** C5, as the code has it.  Every chunk in the store, after any sequence of
    uploads, has no whitespace at either end; it may be empty. *)
Theorem stored_chunks_are_trimmed (vec : Type) (encode : str -> vec)
    (files : list (list (option str))) :
  exists st,
    uploads vec encode (init vec) files = Done st
    /\ Forall (fun c => trimmed (text c) = true) (docs_meta st).
Proof.
  destruct (uploads_done vec encode files (init vec))
    as (st & Hu & _ & Hd & Hall).
  simpl in Hd. exists st. split; [exact Hu|].
  rewrite <- numbered_texts_concat, <- Hd in Hall.
  now apply Forall_map in Hall.
Qed.

(** C5 as stated fails: a page with a long blank stretch has a window made
    of whitespace only, and the empty chunk it leaves is stored. *)
Lemma blank_window_is_stored_empty :
  exists st c,
    uploads unit (fun _ => tt) (init unit) [[Some blank_window_page]] = Done st
    /\ map text (docs_meta st) = [lit "a"; []; lit "b"]
    /\ nth_error (docs_meta st) 1 = Some c
    /\ text c = [].
Proof. do 2 eexists. repeat split; vm_compute; reflexivity. Qed.

(** ** [query] *)

(** C3 at a store of two chunks and [k = 5]: the search pads its answer
    with row -1 for the neighbours it does not have.  The test
    [idx < len(docs_meta)] lets -1 through and [docs_meta[-1]] is the last
    chunk, so three more results are built from it. *)
Theorem query_keeps_rows_below_zero (score : Type) (s1 s2 pad : score) :
  let docs := store_of ["alpha"; "omega"]%string in
  let semantic := fun (_ : str) (_ : Z) =>
    [(s1, 1); (s2, 0); (pad, -1); (pad, -1); (pad, -1)] in
  option_map (map (fun r => (score_ r, context r)))
    (exec semantic (query score docs (lit "anything") 5))
  = Some [ (Some s1, lit "omega"); (Some s2, lit "alpha");
           (Some pad, lit "omega"); (Some pad, lit "omega");
           (Some pad, lit "omega") ].
Proof. intros docs semantic. vm_compute. reflexivity. Qed.

(** C4.  When the extractor finds a value in the concatenation of the
    chunk texts, [query] returns without a [Search] step, and the result is
    the single dictionary with that answer, the context
    [Extracted directly] and no score, whatever [k] is. *)
Theorem direct_extraction_short_circuits (score : Type) (docs : list Chunk)
    (question : str) (k : Z) (a : str) :
  _extract_field_from_text question (all_text docs) = Some a ->
  query score docs question k =
  Ret [ {| score_ := None; answer := a;
           context := lit "Extracted directly" |} ].
Proof.
  intros H. destruct docs as [|d docs].
  - unfold all_text in H. simpl in H.
    rewrite extract_field_empty in H. discriminate.
  - unfold query. rewrite H.
    rewrite (truthy_headed nonspace a (extract_field_headed _ _ _ H)).
    reflexivity.
Qed.

Lemma direct_extraction_short_circuits_witness :
  query Z (store_of ["Name: Asha CGPA: 8.75 Semester: 6"]%string)
    (lit "What is the CGPA?") 5 =
  Ret [ {| score_ := None; answer := lit "8.75";
           context := lit "Extracted directly" |} ].
Proof.
  apply direct_extraction_short_circuits. vm_compute. reflexivity.
Defined.

(** C10.  With no chunks in the store, [query] returns the empty list for
    every question and [k] without searching, and [summarize_doc] returns
    the empty string, for its default and for every word count from 0 up. *)
Theorem empty_corpus_gives_empty_results (score : Type) (question : str)
    (k : Z) :
  query score [] question k = Ret []
  /\ summarize_doc [] 120 = []
  /\ (forall word_count, 0 <= word_count -> summarize_doc [] word_count = []).
Proof.
  split; [reflexivity|]. split; [vm_compute; reflexivity|].
  intros wc H. unfold summarize_doc. simpl map. simpl join.
  rewrite summary_gpa_empty. simpl grp.
  change (split []) with (@nil str).
  rewrite (slice_prefix _ _ H), firstn_nil.
  replace (wc <? len (@nil str)) with false; [reflexivity|].
  symmetry. apply Z.ltb_ge. exact H.
Qed.

Lemma empty_corpus_gives_empty_results_witness :
  query Z [] (lit "anything") 5 = Ret [] /\ summarize_doc [] 7 = [].
Proof.
  destruct (empty_corpus_gives_empty_results Z (lit "anything") 5)
    as (Hq & _ & Hs).
  split; [exact Hq | apply Hs; lia].
Defined.

(** ** The vector index *)




(** ** The chunker *)

(** C7.  A text longer than [CHUNK_SIZE] is cut into at least two chunks,
    none longer than [CHUNK_SIZE + 50]; a window that stops short of the end
    of the text is extended by at most 50 characters and not past the end. *)
Theorem long_text_gives_two_bounded_chunks (text : str) :
  CHUNK_SIZE < len text ->
  exists chunks,
    chunk_loop CHUNK_SIZE OVERLAP (length text) text 0 [] = Done chunks
    /\ (2 <= length chunks)%nat
    /\ Forall (fun c => len c <= CHUNK_SIZE + 50) chunks
    /\ (forall start start' chunk,
          0 <= start -> start + CHUNK_SIZE < len text ->
          window CHUNK_SIZE OVERLAP text start = Done (start', chunk) ->
          start + CHUNK_SIZE <= start' + OVERLAP
                             <= Z.min (len text) (start + CHUNK_SIZE + 50)).
Proof.
  intros Hlen.
  destruct (window_done CHUNK_SIZE OVERLAP text 0 sizes_in_order)
    as (e & c & W & He & Hend & Hc); [lia|].
  pose proof sizes_in_order as Hsz.
  destruct (length text) as [|fuel] eqn:L;
    [unfold len in Hlen; rewrite L in Hlen; unfold CHUNK_SIZE in Hlen; lia|].
  assert (Hl : len text = Z.of_nat (S fuel)) by (unfold len; now rewrite L).
  destruct (chunk_loop_done CHUNK_SIZE OVERLAP text sizes_in_order
              fuel (e - OVERLAP) [c]) as (new & Hn & Hall & Hone).
  { unfold CHUNK_SIZE, OVERLAP in *. lia. }
  { unfold CHUNK_SIZE, OVERLAP in *. lia. }
  exists ([c] ++ new). split; [|split; [|split]].
  - simpl chunk_loop.
    replace (0 <? len text) with true
      by (symmetry; apply Z.ltb_lt; unfold CHUNK_SIZE in Hlen; lia).
    rewrite W. simpl. exact Hn.
  - rewrite length_app. simpl.
    assert (e - OVERLAP < len text)
      by (specialize (Hend ltac:(lia)); unfold OVERLAP; lia).
    specialize (Hone ltac:(assumption)). lia.
  - apply Forall_app. split.
    + constructor; [exact Hc | constructor].
    + eapply Forall_impl; [|exact Hall]. now intros x [_ Hx].
  - intros start start' chunk Hs Hshort Hw.
    destruct (window_done CHUNK_SIZE OVERLAP text start sizes_in_order Hs)
      as (e' & c' & W' & He' & Hend' & _).
    rewrite W' in Hw. inversion Hw; subst.
    specialize (Hend' Hshort). lia.
Qed.

Lemma long_text_gives_two_bounded_chunks_witness :
  exists chunks,
    chunk_loop CHUNK_SIZE OVERLAP 600 (repeat "x"%char 600) 0 [] = Done chunks
    /\ (2 <= length chunks)%nat
    /\ Forall (fun c => len c <= CHUNK_SIZE + 50) chunks.
Proof.
  destruct (long_text_gives_two_bounded_chunks (repeat "x"%char 600))
    as (chunks & H1 & H2 & H3 & _).
  - vm_compute. reflexivity.
  - exists chunks. rewrite repeat_length in H1. auto.
Defined.

(** C8.  With [overlap < chunk_size], every iteration of the window loop
    that completes moves [start] strictly forward, and the loop ends within
    as many iterations as the text has characters; with a non-negative
    overlap it ends by returning its chunks. *)
Theorem windowing_advances_and_terminates (chunk_size overlap : Z)
    (text : str) :
  overlap < chunk_size ->
  (forall start start' chunk,
      window chunk_size overlap text start = Done (start', chunk) ->
      start < start')
  /\ (forall fuel acc,
        (length text <= fuel)%nat ->
        chunk_loop chunk_size overlap fuel text 0 acc <> OutOfFuel)
  /\ (0 <= overlap ->
      exists chunks,
        forall fuel acc,
          (length text <= fuel)%nat ->
          chunk_loop chunk_size overlap fuel text 0 acc = Done (acc ++ chunks)).
Proof.
  intros Hc. split; [|split].
  - intros start start' chunk W. apply window_advance in W. lia.
  - intros fuel acc Hf. apply chunk_loop_fuel; [exact Hc|].
    unfold len. lia.
  - intros Ho.
    destruct (chunk_loop_done chunk_size overlap text (conj Ho Hc)
                (length text) 0 []) as (chunks & Hn & _);
      [lia | unfold len; lia |].
    exists chunks. intros fuel acc Hf.
    rewrite chunk_loop_acc.
    rewrite (chunk_loop_more_fuel _ _ _ _ _ _ _ _ Hn Hf). reflexivity.
Qed.

Lemma windowing_advances_and_terminates_witness :
  (forall start start' chunk,
      window CHUNK_SIZE OVERLAP (lit "one page of text") start
      = Done (start', chunk) -> start < start')
  /\ (forall fuel acc,
        (16 <= fuel)%nat ->
        chunk_loop CHUNK_SIZE OVERLAP fuel (lit "one page of text") 0 acc
        <> OutOfFuel)
  /\ (exists chunks,
        forall fuel acc,
          (16 <= fuel)%nat ->
          chunk_loop CHUNK_SIZE OVERLAP fuel (lit "one page of text") 0 acc
          = Done (acc ++ chunks)).
Proof.
  destruct (windowing_advances_and_terminates CHUNK_SIZE OVERLAP
              (lit "one page of text")) as (H1 & H2 & H3).
  - unfold OVERLAP, CHUNK_SIZE. lia.
  - split; [exact H1|]. split; [exact H2|].
    apply H3. unfold OVERLAP. lia.
Defined.

(** ** [summarize_doc] *)

(** C9, as the code has it.  For a word count from 0 up, the summary is the
    one the spec describes: the GPA line when the pattern matches the
    corpus, then the first [word_count] words joined by single spaces, then
    the ellipsis when the corpus has more words. *)
Theorem summarize_doc_matches_spec (docs : list Chunk) (word_count : Z) :
  0 <= word_count -> summarize_doc docs word_count = summary_spec docs word_count.
Proof.
  intros H. unfold summarize_doc, summary_spec, grp.
  rewrite (slice_prefix _ _ H). unfold len.
  rewrite Z.gtb_ltb.
  destruct (search _ _) as [m|]; [|reflexivity].
  destruct (group 1 m); reflexivity.
Qed.

Lemma summarize_doc_matches_spec_witness :
  summarize_doc (store_of ["one two three four five six seven"]%string) 5
  = summary_spec (store_of ["one two three four five six seven"]%string) 5.
Proof. apply summarize_doc_matches_spec. lia. Defined.

(** C9 as stated fails for a negative word count: the slice
    [words[:-1]] keeps all words but the last, where the spec's first
    [word_count] words are none. *)
Lemma negative_word_count_keeps_words :
  summarize_doc (store_of ["one two three"]%string) (-1) = lit "one two ..."
  /\ summary_spec (store_of ["one two three"]%string) (-1) = lit " ..."
  /\ summarize_doc (store_of ["one two three"]%string) (-1)
     <> summary_spec (store_of ["one two three"]%string) (-1).
Proof. repeat split; vm_compute; (reflexivity || discriminate). Qed.

(** * Further properties of the program *)

(** ** Substrings, stripping and slices *)

Lemma infix_refl (t : str) : infix t t.
Proof. exists [], []. now rewrite app_nil_r. Qed.

Lemma infix_trans (u v t : str) : infix u v -> infix v t -> infix u t.
Proof.
  intros (p1 & q1 & ->) (p2 & q2 & ->).
  exists (p2 ++ p1), (q1 ++ q2). now rewrite <- !app_assoc.
Qed.

Lemma infix_app_l (u t pre : str) : infix u t -> infix u (pre ++ t).
Proof.
  intros (p & q & ->). exists (pre ++ p), q. now rewrite <- app_assoc.
Qed.

Lemma infix_app_r (u t post : str) : infix u t -> infix u (t ++ post).
Proof.
  intros (p & q & ->). exists p, (q ++ post). now rewrite <- !app_assoc.
Qed.

Lemma infix_map (f : ascii -> ascii) (u t : str) :
  infix u t -> infix (map f u) (map f t).
Proof.
  intros (p & q & ->). exists (map f p), (map f q). now rewrite !map_app.
Qed.

Lemma infix_forallb (P : ascii -> bool) (u t : str) :
  infix u t -> forallb P t = true -> forallb P u = true.
Proof.
  intros (p & q & ->). rewrite !forallb_app, !andb_true_iff. tauto.
Qed.

Lemma lstrip_suffix (s : str) : exists pre, s = pre ++ lstrip s.
Proof.
  induction s as [|c r [pre IH]]; simpl; [now exists []|].
  destruct (isspace c); [|now exists []].
  exists (c :: pre). simpl. now rewrite <- IH.
Qed.

Lemma rstrip_prefix (s : str) : exists post, s = rstrip s ++ post.
Proof.
  induction s as [|c r [post IH]]; simpl; [now exists []|].
  destruct (rstrip r) as [|c' r'].
  - destruct (isspace c); [now exists (c :: r) | now exists r].
  - exists post. simpl in *. now rewrite <- IH.
Qed.

Lemma strip_infix (s : str) : infix (strip s) s.
Proof.
  unfold strip. destruct (lstrip_suffix s) as [pre Hp].
  destruct (rstrip_prefix (lstrip s)) as [post Hq].
  exists pre, post. now rewrite <- Hq.
Qed.

Lemma rstrip_id (s : str) (d : ascii) :
  s <> [] -> isspace (last s d) = false -> rstrip s = s.
Proof.
  induction s as [|c r IH]; [congruence|]. intros _ Hl.
  destruct r as [|c' r'].
  - simpl in *. now rewrite Hl.
  - change (last (c :: c' :: r') d) with (last (c' :: r') d) in Hl.
    change (rstrip (c :: c' :: r'))
      with (match rstrip (c' :: r') with
            | [] => if isspace c then [] else [c]
            | x => c :: x
            end).
    rewrite IH by (congruence || assumption). reflexivity.
Qed.

(** Stripping a string that has no whitespace at its ends changes nothing. *)
Lemma strip_id (s : str) : trimmed s = true -> strip s = s.
Proof.
  destruct s as [|c r]; [reflexivity|]. unfold trimmed.
  rewrite andb_true_iff, !negb_true_iff. intros [Hh Hl].
  unfold strip. simpl lstrip. rewrite Hh.
  now apply (rstrip_id (c :: r) c).
Qed.

Lemma slice_infix {A : Type} (l : list A) (a b : Z) :
  exists pre post, l = pre ++ slice l a b ++ post.
Proof.
  unfold slice.
  exists (firstn (Z.to_nat (clamp (len l) a)) l),
         (skipn (Z.to_nat (clamp (len l) b - clamp (len l) a))
            (skipn (Z.to_nat (clamp (len l) a)) l)).
  now rewrite !firstn_skipn.
Qed.

Lemma slice_whole {A : Type} (l : list A) (b : Z) :
  len l <= b -> slice l 0 b = l.
Proof.
  intros H. rewrite slice_prefix by (pose proof (len_nonneg l); lia).
  apply firstn_all2. unfold len in H. lia.
Qed.

Lemma slice_tail {A : Type} (l : list A) (a b : Z) :
  0 <= a -> len l <= b -> slice l a b = skipn (Z.to_nat a) l.
Proof.
  intros Ha Hb. unfold slice, clamp. pose proof (len_nonneg l) as Hn.
  destruct (a <? 0) eqn:Ea; [apply Z.ltb_lt in Ea; lia|].
  destruct (b <? 0) eqn:Eb; [apply Z.ltb_lt in Eb; lia|].
  rewrite (Z.min_r b) by lia.
  destruct (Z.le_ge_cases a (len l)) as [Hle|Hge].
  - rewrite Z.min_l by lia. apply firstn_all2.
    rewrite length_skipn. unfold len. lia.
  - rewrite Z.min_r by lia.
    rewrite !skipn_all2 by (unfold len in *; lia). now rewrite firstn_nil.
Qed.

(** ** More on the chunker *)

Section WindowFacts.

Variables chunk_size overlap : Z.

Lemma chunk_loop_step (fuel : nat) (text : str) (start : Z)
    (acc : list str) :
  start < len text ->
  chunk_loop chunk_size overlap (S fuel) text start acc =
  (r <- window chunk_size overlap text start ;;
   chunk_loop chunk_size overlap fuel text (fst r) (acc ++ [snd r])).
Proof.
  intros H. simpl. apply Z.ltb_lt in H. now rewrite H.
Qed.

Lemma chunk_loop_stop (fuel : nat) (text : str) (start : Z)
    (acc : list str) :
  len text <= start ->
  chunk_loop chunk_size overlap fuel text start acc = Done acc.
Proof.
  intros H. apply Z.ltb_ge in H. destruct fuel; simpl; now rewrite H.
Qed.

(** A window that reaches the end of the text is not extended. *)
Lemma window_last (text : str) (start : Z) :
  len text <= start + chunk_size ->
  window chunk_size overlap text start =
  Done (start + chunk_size - overlap,
        strip (slice text start (start + chunk_size))).
Proof.
  intros H. unfold window. apply Z.ltb_ge in H. now rewrite H.
Qed.

Lemma window_infix (text : str) (start start' : Z) (chunk : str) :
  window chunk_size overlap text start = Done (start', chunk) ->
  infix chunk text.
Proof.
  unfold window. destruct (start + chunk_size <? len text).
  - destruct (snap text _ _ _) as [e'| |]; simpl; try discriminate.
    intros H. inversion H; subst.
    eapply infix_trans; [apply strip_infix | apply slice_infix].
  - intros H. inversion H; subst.
    eapply infix_trans; [apply strip_infix | apply slice_infix].
Qed.

Lemma chunk_loop_infix (text : str) :
  forall fuel start acc l,
    chunk_loop chunk_size overlap fuel text start acc = Done l ->
    exists new, l = acc ++ new /\ Forall (fun c => infix c text) new.
Proof.
  induction fuel as [|fuel IH]; intros start acc l H; simpl in H.
  - destruct (start <? len text); [discriminate|]. inversion H; subst.
    exists []. now rewrite app_nil_r.
  - destruct (start <? len text).
    + destruct (window chunk_size overlap text start) as [[s' c]| |] eqn:W;
        simpl in H; try discriminate.
      apply IH in H. destruct H as (new & -> & Hall).
      exists (c :: new). rewrite <- app_assoc. split; [reflexivity|].
      constructor; [exact (window_infix _ _ _ _ W) | exact Hall].
    + inversion H; subst. exists []. now rewrite app_nil_r.
Qed.

(** Each window starts at least [chunk_size - overlap] after the one before,
    which bounds their number. *)
Lemma chunk_loop_count (text : str) :
  overlap < chunk_size ->
  forall fuel start acc l,
    chunk_loop chunk_size overlap fuel text start acc = Done l ->
    exists new,
      l = acc ++ new
      /\ (new = [] \/
          start + (chunk_size - overlap) * (len new - 1) < len text).
Proof.
  intros Hc. induction fuel as [|fuel IH]; intros start acc l H; simpl in H.
  - destruct (start <? len text); [discriminate|]. inversion H; subst.
    exists []. rewrite app_nil_r. auto.
  - destruct (start <? len text) eqn:E.
    + apply Z.ltb_lt in E.
      destruct (window chunk_size overlap text start) as [[s' c]| |] eqn:W;
        simpl in H; try discriminate.
      apply window_advance in W.
      apply IH in H. destruct H as (new & -> & Hn).
      exists (c :: new). rewrite <- app_assoc. split; [reflexivity|].
      right. destruct Hn as [->|Hn].
      * change (len [c]) with 1. lia.
      * replace (len (c :: new)) with (len new + 1)
          by (unfold len; simpl length; lia).
        nia.
    + inversion H; subst. exists []. rewrite app_nil_r. auto.
Qed.

(** The inner loop stops at the first whitespace character, or at the
    limit when there is none before it. *)
Lemma snap_stops (text : str) :
  forall n e x e',
    (Z.to_nat (x - e) <= n)%nat -> e <= x ->
    snap text n e x = Done e' ->
    (forall j, e <= j < e' ->
               exists c, Py.index text j = Some c /\ isspace c = false)
    /\ (e' = x \/ exists c, Py.index text e' = Some c /\ isspace c = true).
Proof.
  induction n as [|n IH]; intros e x e' Hn Hx H; simpl in H.
  - inversion H; subst. split; [intros j Hj; lia | left; lia].
  - destruct (e <? x) eqn:Ex.
    + apply Z.ltb_lt in Ex.
      destruct (Py.index text e) as [c|] eqn:Ei; [|discriminate].
      destruct (isspace c) eqn:Ec.
      * inversion H; subst. split; [intros j Hj; lia | right; eauto].
      * apply IH in H; [|lia|lia]. destruct H as [H1 H2]. split; [|exact H2].
        intros j Hj. destruct (Z.eq_dec j e) as [->|Hne]; [eauto|].
        apply H1. lia.
    + apply Z.ltb_ge in Ex. inversion H; subst.
      split; [intros j Hj; lia | left; lia].
Qed.

End WindowFacts.

Lemma page_loop_blank (page : option str) (rest : list (option str))
    (acc : list str) :
  blank page = true -> page_loop (page :: rest) acc = page_loop rest acc.
Proof.
  unfold blank. simpl.
  destruct (strip match page with Some t => t | None => [] end);
    [reflexivity | discriminate].
Qed.

(** What a page with text does: its chunks are added, then the cap is
    tested. *)
Lemma page_loop_text (page : option str) (rest : list (option str))
    (acc : list str) :
  blank page = false ->
  let text := strip match page with Some t => t | None => [] end in
  exists new,
    chunk_loop CHUNK_SIZE OVERLAP (length text) text 0 [] = Done new
    /\ new <> []
    /\ Forall (fun c => len c <= CHUNK_SIZE + 50 /\ infix c text) new
    /\ page_loop (page :: rest) acc =
       if 2000 <? len (acc ++ new) then Done (acc ++ new)
       else page_loop rest (acc ++ new).
Proof.
  unfold blank. intros Hb. cbv zeta. simpl page_loop.
  destruct (strip match page with Some t => t | None => [] end)
    as [|c r] eqn:E; [discriminate|].
  destruct (chunk_loop_done CHUNK_SIZE OVERLAP (c :: r) sizes_in_order
              (length (c :: r)) 0 []) as (new & Hn & Hall & Hone);
    [lia | unfold len; lia |].
  simpl app in Hn. exists new. split; [exact Hn|]. split; [|split].
  - intros ->. unfold len in Hone. simpl in Hone. lia.
  - destruct (chunk_loop_infix _ _ _ _ _ _ _ Hn) as (new' & Hl & Hi).
    simpl in Hl. subst new'.
    apply Forall_forall. intros x Hx.
    rewrite Forall_forall in Hall, Hi. split; [now apply Hall | now apply Hi].
  - rewrite chunk_loop_acc, Hn. reflexivity.
Qed.

Lemma page_loop_chunks (pages : list (option str)) :
  forall acc l,
    page_loop pages acc = Done l ->
    exists new,
      l = acc ++ new
      /\ Forall (fun c => len c <= CHUNK_SIZE + 50
                          /\ exists t, In (Some t) pages /\ infix c t) new.
Proof.
  induction pages as [|page rest IH]; intros acc l H.
  - simpl in H. inversion H; subst. exists []. now rewrite app_nil_r.
  - destruct (blank page) eqn:B.
    + rewrite page_loop_blank in H by exact B.
      apply IH in H. destruct H as (new & -> & Hall). exists new.
      split; [reflexivity|]. eapply Forall_impl; [|exact Hall].
      intros c (Hc & t & Hin & Hi). split; [exact Hc|].
      exists t. split; [now right | exact Hi].
    + destruct (page_loop_text page rest acc B) as (new & _ & _ & Hall & Hp).
      rewrite Hp in H. clear Hp.
      assert (Hnew : Forall (fun c => len c <= CHUNK_SIZE + 50
                          /\ exists t, In (Some t) (page :: rest) /\ infix c t)
                       new).
      { eapply Forall_impl; [|exact Hall]. intros c [Hc Hi].
        split; [exact Hc|]. destruct page as [t|].
        - exists t. split; [now left|].
          eapply infix_trans; [exact Hi | apply strip_infix].
        - unfold blank in B. simpl in B. discriminate. }
      destruct (2000 <? len (acc ++ new)).
      * inversion H; subst. now exists new.
      * apply IH in H. destruct H as (new' & -> & Hall').
        exists (new ++ new'). rewrite app_assoc. split; [reflexivity|].
        apply Forall_app. split; [exact Hnew|].
        eapply Forall_impl; [|exact Hall'].
        intros c (Hc & t & Hin & Hi). split; [exact Hc|].
        exists t. split; [now right | exact Hi].
Qed.

Lemma page_loop_capped (pages rest : list (option str)) :
  forall acc l,
    page_loop pages acc = Done l ->
    len acc <= 2000 -> 2000 < len l ->
    page_loop (pages ++ rest) acc = Done l.
Proof.
  induction pages as [|page pages IH]; intros acc l H Ha Hl.
  - simpl in H. inversion H; subst. lia.
  - rewrite <- app_comm_cons. destruct (blank page) eqn:B.
    + rewrite page_loop_blank in * by exact B. now apply IH.
    + destruct (page_loop_text page pages acc B)
        as (n1 & E1 & _ & _ & Hp1).
      destruct (page_loop_text page (pages ++ rest) acc B)
        as (n2 & E2 & _ & _ & Hp2).
      assert (n2 = n1) by congruence. subst n2.
      rewrite Hp1 in H. rewrite Hp2.
      destruct (2000 <? len (acc ++ n1)) eqn:E; [exact H|].
      apply Z.ltb_ge in E. now apply IH.
Qed.

Lemma page_budget_nonneg (ps : list (option str)) :
  0 <= fold_right Z.add 0 (map page_budget ps).
Proof.
  induction ps as [|p ps IH]; cbn [map fold_right]; [lia|].
  unfold page_budget at 1.
  pose proof (len_nonneg (strip match p with Some t => t | None => [] end)).
  unfold CHUNK_SIZE, OVERLAP. lia.
Qed.

Lemma page_loop_size (pages : list (option str)) :
  forall acc l,
    page_loop pages acc = Done l ->
    (CHUNK_SIZE - OVERLAP) * (len l - len acc) <=
    fold_right Z.add 0 (map page_budget pages).
Proof.
  induction pages as [|page rest IH]; intros acc l H.
  - simpl in H. inversion H; subst. cbn [map fold_right].
    rewrite Z.sub_diag, Z.mul_0_r. lia.
  - cbn [map fold_right]. pose proof (page_budget_nonneg rest) as Hpos.
    destruct (blank page) eqn:B.
    + rewrite page_loop_blank in H by exact B. apply IH in H.
      unfold page_budget at 1.
      pose proof
        (len_nonneg (strip match page with Some t => t | None => [] end)).
      unfold CHUNK_SIZE, OVERLAP in *. lia.
    + destruct (page_loop_text page rest acc B) as (new & Hn & Hne & _ & Hp).
      rewrite Hp in H. clear Hp.
      destruct (chunk_loop_count CHUNK_SIZE OVERLAP _ (proj2 sizes_in_order)
                  _ _ _ _ Hn) as (new' & Hl & Hc).
      simpl in Hl. subst new'. destruct Hc as [->|Hc]; [congruence|].
      unfold page_budget at 1.
      destruct (2000 <? len (acc ++ new)).
      * inversion H; subst. rewrite len_app.
        unfold CHUNK_SIZE, OVERLAP in *. lia.
      * apply IH in H. rewrite len_app in H.
        unfold CHUNK_SIZE, OVERLAP in *. lia.
Qed.

(** ** Theorems on the chunker *)

(** X1.  A page whose stripped text has at most [CHUNK_SIZE - OVERLAP]
    characters gives exactly one chunk, the stripped text. *)
Theorem small_page_is_one_chunk (t : str) :
  0 < len (strip t) <= CHUNK_SIZE - OVERLAP ->
  extract_and_chunk_pdf [Some t] = Done [strip t].
Proof.
  intros H. pose proof (strip_trimmed t) as Ht.
  unfold extract_and_chunk_pdf. simpl page_loop.
  destruct (strip t) as [|c r] eqn:E; [unfold len in H; simpl in H; lia|].
  set (text := c :: r) in *.
  change (length text) with (S (length r)).
  rewrite chunk_loop_step by lia.
  rewrite window_last by (unfold CHUNK_SIZE, OVERLAP in *; lia).
  simpl obind. cbn [fst snd app].
  rewrite slice_whole by (unfold CHUNK_SIZE, OVERLAP in *; lia).
  rewrite (strip_id text Ht).
  rewrite chunk_loop_stop by (unfold CHUNK_SIZE, OVERLAP in *; lia).
  reflexivity.
Qed.

Lemma small_page_is_one_chunk_witness :
  extract_and_chunk_pdf [Some (lit "  Name: Asha  ")]
  = Done [strip (lit "  Name: Asha  ")].
Proof.
  apply small_page_is_one_chunk. vm_compute.
  split; [reflexivity | discriminate].
Defined.

(** X2.  A page whose stripped text has more than [CHUNK_SIZE - OVERLAP] and at
    most [CHUNK_SIZE] characters gives two chunks: the whole text, and
    again its tail from character [CHUNK_SIZE - OVERLAP] on. *)
Theorem mid_page_repeats_its_tail (t : str) :
  CHUNK_SIZE - OVERLAP < len (strip t) <= CHUNK_SIZE ->
  extract_and_chunk_pdf [Some t] =
  Done [strip t;
        strip (skipn (Z.to_nat (CHUNK_SIZE - OVERLAP)) (strip t))].
Proof.
  intros H. pose proof (strip_trimmed t) as Ht.
  unfold extract_and_chunk_pdf. simpl page_loop.
  destruct (strip t) as [|c r] eqn:E;
    [unfold len, CHUNK_SIZE, OVERLAP in H; simpl in H; lia|].
  set (text := c :: r) in *.
  destruct r as [|c' r'];
    [unfold len, CHUNK_SIZE, OVERLAP in H; simpl in H; lia|].
  change (length text) with (S (S (length r'))).
  rewrite chunk_loop_step by (unfold CHUNK_SIZE, OVERLAP in *; lia).
  rewrite window_last by (unfold CHUNK_SIZE, OVERLAP in *; lia).
  cbn [obind fst snd app].
  rewrite slice_whole by (unfold CHUNK_SIZE, OVERLAP in *; lia).
  rewrite (strip_id text Ht).
  rewrite chunk_loop_step by (unfold CHUNK_SIZE, OVERLAP in *; lia).
  rewrite window_last by (unfold CHUNK_SIZE, OVERLAP in *; lia).
  cbn [obind fst snd app].
  rewrite slice_tail by (unfold CHUNK_SIZE, OVERLAP in *; lia).
  rewrite chunk_loop_stop by (unfold CHUNK_SIZE, OVERLAP in *; lia).
  reflexivity.
Qed.

Lemma mid_page_repeats_its_tail_witness :
  extract_and_chunk_pdf [Some (repeat "x"%char 399 ++ lit " tail")] =
  Done [repeat "x"%char 399 ++ lit " tail"; lit "tail"].
Proof.
  etransitivity.
  - apply (mid_page_repeats_its_tail (repeat "x"%char 399 ++ lit " tail")).
    vm_compute. split; [reflexivity | discriminate].
  - vm_compute. reflexivity.
Defined.

(** X3.  Pages without text, or with whitespace only, change nothing: the
    chunks are those of the document without them. *)
Theorem blank_pages_contribute_nothing (pages : list (option str)) :
  extract_and_chunk_pdf pages =
  extract_and_chunk_pdf (filter (fun page => negb (blank page)) pages).
Proof.
  unfold extract_and_chunk_pdf. generalize (@nil str).
  induction pages as [|page rest IH]; intros acc; [reflexivity|].
  simpl filter. destruct (blank page) eqn:B; simpl negb; cbv iota.
  - rewrite page_loop_blank by exact B. apply IH.
  - destruct (page_loop_text page rest acc B) as (n1 & E1 & _ & _ & Hp1).
    destruct (page_loop_text page
                (filter (fun page => negb (blank page)) rest) acc B)
      as (n2 & E2 & _ & _ & Hp2).
    assert (n2 = n1) by congruence. subst n2.
    rewrite Hp1, Hp2. now rewrite IH.
Qed.

(** X4.  The cap: once the pages read have given more than 2000 chunks, the
    pages after them are not read. *)
Theorem pages_after_the_cap_are_ignored (pages rest : list (option str))
    (chunks : list str) :
  extract_and_chunk_pdf pages = Done chunks ->
  2000 < len chunks ->
  extract_and_chunk_pdf (pages ++ rest) = Done chunks.
Proof.
  unfold extract_and_chunk_pdf. intros H Hl.
  apply page_loop_capped; [exact H | unfold len; simpl; lia | exact Hl].
Qed.

Lemma pages_after_the_cap_are_ignored_witness :
  extract_and_chunk_pdf (repeat (Some (lit "a")) 2001 ++ [Some (lit "b")])
  = Done (repeat (lit "a") 2001).
Proof.
  apply pages_after_the_cap_are_ignored; vm_compute; reflexivity.
Defined.

(** X5.  Every chunk of a document is a contiguous piece of the text of one of
    its pages and has at most [CHUNK_SIZE + 50] characters. *)
Theorem chunks_are_bounded_pieces_of_pages (pages : list (option str)) :
  exists chunks,
    extract_and_chunk_pdf pages = Done chunks
    /\ Forall (fun c => len c <= CHUNK_SIZE + 50
                        /\ exists t, In (Some t) pages /\ infix c t) chunks.
Proof.
  destruct (extract_and_chunk_pdf_done pages) as (chunks & H & _).
  exists chunks. split; [exact H|].
  unfold extract_and_chunk_pdf in H. apply page_loop_chunks in H.
  destruct H as (new & -> & Hall). exact Hall.
Qed.

(** X6.  The number of chunks is linear in the size of the document: each page
    of [n] characters, once stripped, accounts for at most
    [(n - 1) / (CHUNK_SIZE - OVERLAP) + 1] of them. *)
Theorem chunk_count_is_linear (pages : list (option str)) :
  exists chunks,
    extract_and_chunk_pdf pages = Done chunks
    /\ (CHUNK_SIZE - OVERLAP) * len chunks <=
       fold_right Z.add 0 (map page_budget pages).
Proof.
  destruct (extract_and_chunk_pdf_done pages) as (chunks & H & _).
  exists chunks. split; [exact H|].
  unfold extract_and_chunk_pdf in H. apply page_loop_size in H.
  change (len (@nil str)) with 0 in H. now rewrite Z.sub_0_r in H.
Qed.

(** X7.  A window that stops short of the end of the text is extended over
    characters that are not whitespace only, and ends at the first
    whitespace character or, when there is none, 50 characters on or at the
    end of the text. *)
Theorem window_ends_at_whitespace_or_limit (chunk_size overlap : Z)
    (text : str) (start start' : Z) (chunk : str) :
  0 <= start + chunk_size < len text ->
  window chunk_size overlap text start = Done (start', chunk) ->
  chunk = strip (slice text start (start' + overlap))
  /\ (forall j, start + chunk_size <= j < start' + overlap ->
                exists c, Py.index text j = Some c /\ isspace c = false)
  /\ (start' + overlap = Z.min (len text) (start + chunk_size + 50)
      \/ exists c, Py.index text (start' + overlap) = Some c
                   /\ isspace c = true).
Proof.
  intros Hs. unfold window.
  replace (start + chunk_size <? len text) with true
    by (symmetry; apply Z.ltb_lt; lia).
  destruct (snap text _ _ _) as [e| |] eqn:E; simpl; try discriminate.
  intros H. inversion H; subst. replace (e - overlap + overlap) with e by lia.
  split; [reflexivity|].
  apply snap_stops in E; [exact E | lia | lia].
Qed.

Lemma window_ends_at_whitespace_or_limit_witness :
  lit "hello" = strip (slice (lit "hello world") 0 (4 + 1))
  /\ (forall j, 0 + 3 <= j < 4 + 1 ->
                exists c, Py.index (lit "hello world") j = Some c
                          /\ isspace c = false)
  /\ (4 + 1 = Z.min (len (lit "hello world")) (0 + 3 + 50)
      \/ exists c, Py.index (lit "hello world") (4 + 1) = Some c
                   /\ isspace c = true).
Proof.
  apply (window_ends_at_whitespace_or_limit 3 1 (lit "hello world") 0 4).
  - vm_compute. split; [discriminate | reflexivity].
  - vm_compute. reflexivity.
Defined.

(** ** The matcher is complete for [Sem] *)

Lemma count_max (p : ascii -> bool) :
  forall m s' hi,
    forallb p m = true -> within hi (length m) = true ->
    (length m <= count p hi (m ++ s'))%nat.
Proof.
  induction m as [|a m IH]; intros s' hi Hp Hh; simpl; [lia|].
  simpl in Hp. apply andb_true_iff in Hp. destruct Hp as [Ha Hp].
  rewrite Ha. simpl.
  assert (H1 : within hi 1 = true).
  { destruct hi as [h|]; [|reflexivity]. unfold within in *. simpl length in Hh.
    apply Nat.leb_le in Hh. apply Nat.leb_le. lia. }
  rewrite H1. apply le_n_S, IH; [exact Hp|].
  destruct hi as [h|]; [|reflexivity]. unfold within, option_map in *.
  simpl length in Hh. apply Nat.leb_le in Hh. apply Nat.leb_le. lia.
Qed.

Lemma try_down_none {R : Type} (f : nat -> option R) (lo : nat) :
  forall i, try_down i lo f = None ->
            forall j, (lo <= j <= i)%nat -> f j = None.
Proof.
  induction i as [|i IH]; simpl; intros H j Hj.
  - destruct (Nat.ltb 0 lo) eqn:E; [apply Nat.ltb_lt in E; lia|].
    assert (j = O) by lia. subst. now destruct (f O).
  - destruct (Nat.ltb (S i) lo) eqn:E; [apply Nat.ltb_lt in E; lia|].
    destruct (f (S i)) eqn:F; [discriminate|].
    destruct (Nat.eq_dec j (S i)) as [->|Hne]; [exact F|].
    apply IH; [exact H | lia].
Qed.

(** When the matcher fails, no match leads the continuation to success. *)
Lemma run_complete {R : Type} (r : regex) :
  forall (s : str) (c : caps) (k : str -> str -> caps -> option R),
    run r s c k = None ->
    forall m s' c', s = m ++ s' -> Sem r m c c' -> k m s' c' = None.
Proof.
  induction r as [ | p | r1 IH1 r2 IH2 | r1 IH1 r2 IH2 | p lo hi
                 | r1 IH1 | n r1 IH1 ]; intros s c k H m s' c' Hs HS;
    simpl in H; inversion HS; subst; clear HS.
  - exact H.
  - simpl in H. match goal with Hp : p _ = true |- _ => now rewrite Hp in H end.
  - rewrite <- app_assoc in H.
    pose proof (IH1 _ _ _ H m1 (m2 ++ s') c1 eq_refl ltac:(eassumption)) as K.
    simpl in K.
    exact (IH2 _ _ _ K m2 s' c' eq_refl ltac:(eassumption)).
  - destruct (run r1 (m ++ s') c k) eqn:E; [discriminate|].
    exact (IH1 _ _ _ E m s' c' eq_refl ltac:(eassumption)).
  - destruct (run r1 (m ++ s') c k) eqn:E; [discriminate|].
    exact (IH2 _ _ _ H m s' c' eq_refl ltac:(eassumption)).
  - pose proof (try_down_none _ _ _ H (length m)) as Hj.
    simpl in Hj.
    rewrite firstn_app, Nat.sub_diag, firstn_all, firstn_O, app_nil_r in Hj.
    rewrite skipn_app, Nat.sub_diag, skipn_all, skipn_O in Hj.
    apply Hj. split; [assumption|]. now apply count_max.
  - destruct (run r1 (m ++ s') c k) eqn:E; [discriminate|].
    exact (IH1 _ _ _ E m s' c' eq_refl ltac:(eassumption)).
  - simpl in H. now destruct (run r1 s' c' k).
  - exact (IH1 _ _ _ H m s' _ eq_refl ltac:(eassumption)).
Qed.

Lemma search_complete (r : regex) :
  forall pre m post c',
    search r (pre ++ m ++ post) = None -> ~ Sem r m [] c'.
Proof.
  induction pre as [|a pre IH]; intros m post c' H HS.
  - simpl app in H.
    assert (Hm : match_here r (m ++ post) = None).
    { destruct (m ++ post); simpl in H;
        destruct (match_here r _); congruence. }
    unfold match_here in Hm.
    pose proof (run_complete r _ _ _ Hm m post c' eq_refl HS). discriminate.
  - simpl in H. destruct (match_here r (a :: pre ++ m ++ post));
      [discriminate|]. exact (IH m post c' H HS).
Qed.

Lemma search_infix (r : regex) :
  forall s m, search r s = Some m -> infix (whole m) s.
Proof.
  assert (Hhere : forall s m, match_here r s = Some m ->
                              exists post, s = whole m ++ post).
  { intros s m H. unfold match_here in H. apply run_sound in H.
    destruct H as (m' & s' & c' & -> & _ & Hk). inversion Hk; subst.
    now exists s'. }
  induction s as [|a s IH]; intros m H; simpl in H.
  - destruct (match_here r []) eqn:E; [|discriminate]. inversion H; subst.
    destruct (Hhere _ _ E) as [post Hp]. exists [], post. exact Hp.
  - destruct (match_here r (a :: s)) eqn:E.
    + inversion H; subst. destruct (Hhere _ _ E) as [post Hp].
      exists [], post. exact Hp.
    + apply IH in H. now apply (infix_app_l _ _ [a]).
Qed.

(** A pattern found in a piece of a text is found in the text. *)
Lemma search_mono (r : regex) (u t : str) :
  infix u t -> search r t = None -> search r u = None.
Proof.
  intros Hi Ht. destruct (search r u) as [m|] eqn:E; [|reflexivity].
  exfalso. pose proof (search_sound _ _ _ E) as HS.
  pose proof (infix_trans _ _ _ (search_infix _ _ _ E) Hi) as (pre & post & ->).
  exact (search_complete r pre (whole m) post (groups m) Ht HS).
Qed.

(** ** Groups and characters of a match *)

Lemma sem_groups_gen (chk : regex -> bool) (Q : str -> Prop) (n : nat) :
  (forall r m c c', Sem r m c c' -> chk r = true -> Q m) ->
  forall r m c c',
    Sem r m c c' ->
    groups_ok chk n r = true ->
    (forall g, lookup n c = Some g -> Q g) ->
    forall g, lookup n c' = Some g -> Q g.
Proof.
  intros Hchk. induction 1; simpl; intros Hg Hc; auto.
  - apply andb_true_iff in Hg. destruct Hg. auto.
  - apply andb_true_iff in Hg. destruct Hg. auto.
  - apply andb_true_iff in Hg. destruct Hg. auto.
  - apply andb_true_iff in Hg. destruct Hg as [Hg1 Hg2].
    intros g Hl. destruct (Nat.eqb n n0) eqn:E.
    + inversion Hl; subst. eapply Hchk; eassumption.
    + eapply IHSem; eassumption.
Qed.

Lemma sem_chars (P : ascii -> bool) (r : regex) (m : str) (c c' : caps) :
  Sem r m c c' -> chars_ok P r = true -> forallb P m = true.
Proof.
  induction 1; simpl; intros Hc; auto.
  - now rewrite (subset_sound _ _ _ Hc H).
  - apply andb_true_iff in Hc. destruct Hc.
    rewrite forallb_app, IHSem1, IHSem2; auto.
  - apply andb_true_iff in Hc. destruct Hc. auto.
  - apply andb_true_iff in Hc. destruct Hc. auto.
  - rewrite forallb_forall in *. intros a Ha.
    eapply subset_sound; [exact Hc | auto].
Qed.

(** A group holds a piece of the text matched. *)
Lemma sem_group_infix (n : nat) (r : regex) (m : str) (c c' : caps) :
  Sem r m c c' ->
  forall g, lookup n c' = Some g -> lookup n c = Some g \/ infix g m.
Proof.
  induction 1; intros g Hl; auto.
  - apply IHSem2 in Hl. destruct Hl as [Hl|Hi].
    + apply IHSem1 in Hl. destruct Hl as [Hl|Hi]; [now left|].
      right. now apply infix_app_r.
    + right. now apply infix_app_l.
  - simpl in Hl. destruct (Nat.eqb n n0).
    + inversion Hl; subst. right. apply infix_refl.
    + auto.
Qed.

Lemma group_infix (r : regex) (t : str) (m : match_) (n : nat) (g : str) :
  search r t = Some m -> group n m = Some g -> infix g t.
Proof.
  intros Hs Hg. pose proof (search_infix _ _ _ Hs) as Hw.
  destruct n as [|n]; simpl in Hg.
  - inversion Hg; subst. exact Hw.
  - apply search_sound in Hs.
    destruct (sem_group_infix (S n) _ _ _ _ Hs g Hg) as [Hl|Hi];
      [discriminate|].
    eapply infix_trans; eassumption.
Qed.

Lemma search_group1_chars (P : ascii -> bool) (r : regex) (t : str)
    (m : match_) (g : str) :
  groups_ok (chars_ok P) 1 r = true ->
  search r t = Some m -> group 1 m = Some g -> forallb P g = true.
Proof.
  intros Hok Hs Hg. apply search_sound in Hs.
  eapply (sem_groups_gen (chars_ok P) (fun g => forallb P g = true) 1);
    try eassumption.
  - intros r0 m0 c0 c0' H0 H1. eapply sem_chars; eassumption.
  - simpl. discriminate.
Qed.

Lemma search_whole_chars (P : ascii -> bool) (r : regex) (t : str)
    (m : match_) :
  chars_ok P r = true -> search r t = Some m -> forallb P (whole m) = true.
Proof.
  intros Hok Hs. apply search_sound in Hs. eapply sem_chars; eassumption.
Qed.

(** ** More on the field extractor *)

Lemma startswith_prefix (p s : str) :
  startswith p s = true <-> exists post, s = p ++ post.
Proof.
  revert s. induction p as [|a p IH]; intros s; simpl.
  - split; [intros _; now exists s | reflexivity].
  - destruct s as [|b s].
    + split; [discriminate | intros [post H]; discriminate].
    + rewrite andb_true_iff, Ascii.eqb_eq, IH. split.
      * intros [-> [post ->]]. now exists post.
      * intros [post H]. inversion H; subst. split; [reflexivity|].
        now exists post.
Qed.

(** [needle in hay] holds exactly when [needle] is a piece of [hay]. *)
Lemma contains_infix (needle hay : str) :
  contains needle hay = true <-> infix needle hay.
Proof.
  induction hay as [|b hay IH]; simpl.
  - rewrite orb_false_r, startswith_prefix. split.
    + intros [post H]. now exists [], post.
    + intros (pre & post & H). destruct pre; [now exists post|discriminate].
  - rewrite orb_true_iff, startswith_prefix, IH. split.
    + intros [[post H]|Hi]; [now exists [], post|].
      now apply (infix_app_l _ _ [b]).
    + intros (pre & post & H). destruct pre as [|a pre].
      * left. now exists post.
      * right. inversion H; subst. now exists pre, post.
Qed.

Lemma contains_longer (short long q : str) :
  infix short long -> contains long q = true -> contains short q = true.
Proof.
  rewrite !contains_infix. intros H1 H2. eapply infix_trans; eassumption.
Qed.

Lemma join_infix (sep p : str) (parts : list str) :
  In p parts -> infix p (join sep parts).
Proof.
  induction parts as [|x parts IH]; [intros []|].
  intros [->|Hin].
  - destruct parts; simpl; [apply infix_refl|].
    apply infix_app_r, infix_refl.
  - destruct parts as [|y parts]; [destruct Hin|].
    change (join sep (x :: y :: parts))
      with (x ++ sep ++ join sep (y :: parts)).
    apply infix_app_l, infix_app_l, IH, Hin.
Qed.



(** A category that finds nothing in a text finds nothing in a piece of
    it. *)
Lemma extract_mono (f : Field) (u t : str) :
  infix u t -> extract f t = None -> extract f u = None.
Proof.
  intros Hi. destruct f; unfold extract, grp; intros H;
    (destruct (search _ t) as [m|] eqn:E;
     [| now rewrite (search_mono _ _ _ Hi E)]); exfalso.
  - destruct (group 1 m) eqn:G; [discriminate|].
    eapply group1_participates; [|exact E|exact G]. simpl. tauto.
  - destruct (group 1 m) eqn:G; [discriminate|].
    eapply group1_participates; [|exact E|exact G]. simpl. tauto.
  - destruct (group 1 m) eqn:G; [discriminate|].
    eapply group1_participates; [|exact E|exact G]. simpl. tauto.
  - discriminate.
  - discriminate.
  - discriminate.
Qed.

Lemma extract_infix (f : Field) (t a : str) :
  extract f t = Some a -> infix a t.
Proof.
  destruct f; unfold extract, grp; intros H; open_search H m E.
  - open_group1 H m g G.
    eapply infix_trans; [apply strip_infix | eapply group_infix; eassumption].
  - open_group1 H m g G.
    eapply infix_trans; [apply strip_infix | eapply group_infix; eassumption].
  - open_group1 H m g G. unfold id. eapply group_infix; eassumption.
  - inversion H; subst. unfold id. eapply search_infix; eassumption.
  - inversion H; subst.
    eapply infix_trans; [apply strip_infix | eapply search_infix; eassumption].
  - inversion H; subst. unfold id. eapply search_infix; eassumption.
Qed.

(** When the extractor finds nothing in a text, it finds nothing in a piece
    of it, for the same question. *)
Lemma extract_field_mono (question u t : str) :
  infix u t ->
  _extract_field_from_text question t = None ->
  _extract_field_from_text question u = None.
Proof.
  intros Hi. rewrite !extract_field_attempts, !attempts_none.
  intros H f Hin Hk. eapply extract_mono; [|exact (H f Hin Hk)].
  now apply infix_map.
Qed.

Lemma replace_no_newline (t : str) :
  ~ In "010"%char (replace "010"%char " "%char t).
Proof.
  unfold replace. rewrite in_map_iff. intros (c & Hc & _).
  destruct (Ascii.eqb c "010"%char) eqn:E; [discriminate|].
  apply Ascii.eqb_neq in E. congruence.
Qed.

(** ** Theorems on the field extractor *)

(** X8.  A value the extractor returns is a contiguous piece of the text (with
    its line breaks turned into spaces): it is copied, never made up.  It is
    not empty and holds no line break. *)
Theorem extracted_value_is_a_piece_of_the_text (question text a : str) :
  _extract_field_from_text question text = Some a ->
  infix a (replace "010"%char " "%char text)
  /\ a <> []
  /\ ~ In "010"%char a.
Proof.
  intros H. pose proof (extract_field_headed _ _ _ H) as (c & r & -> & _).
  rewrite extract_field_attempts in H. apply attempts_some in H.
  destruct H as (_ & f & _ & _ & _ & E & _). apply extract_infix in E.
  split; [exact E|]. split; [discriminate|].
  intros Hin. apply (replace_no_newline text).
  destruct E as (pre & post & ->). rewrite !in_app_iff. tauto.
Qed.

Lemma extracted_value_is_a_piece_of_the_text_witness :
  infix (lit "8.75")
    (replace "010"%char " "%char (lit "Name: Asha CGPA: 8.75 Semester: 6"))
  /\ lit "8.75" <> []
  /\ ~ In "010"%char (lit "8.75").
Proof.
  apply (extracted_value_is_a_piece_of_the_text (lit "What is the CGPA?")).
  vm_compute. reflexivity.
Defined.

(** X10.  A category that finds a value in a piece of a text finds one in the
    whole text. *)
Theorem field_found_in_a_piece_is_found_in_the_whole (f : Field)
    (u t : str) :
  infix u t -> extract f u <> None -> extract f t <> None.
Proof. intros Hi Hu Ht. apply Hu. eapply extract_mono; eassumption. Qed.

Lemma field_found_in_a_piece_is_found_in_the_whole_witness :
  extract Email (lit "write to asha@example.com today") <> None.
Proof.
  apply (field_found_in_a_piece_is_found_in_the_whole Email
           (lit "asha@example.com")).
  - exists (lit "write to "), (lit " today"). reflexivity.
  - vm_compute. discriminate.
Defined.

(** X11.  The keyword tests are tests for a piece of the question, so the longer
    keywords add nothing: the semester category is chosen exactly when the
    question holds [sem], and the GPA category exactly when it holds [gpa]
    or [cpi]. *)
Theorem longer_keywords_are_redundant (q : str) :
  keyword Semester q = contains (lit "sem") q
  /\ keyword GPA q = (contains (lit "gpa") q || contains (lit "cpi") q)%bool.
Proof.
  unfold keyword. split.
  - destruct (contains (lit "semester") q) eqn:E; [|reflexivity].
    symmetry. apply (contains_longer (lit "sem") (lit "semester")); [|exact E].
    exists [], (lit "ester"). reflexivity.
  - cbn [existsb]. rewrite orb_false_r.
    assert (Hc : contains (lit "cgpa") q = true ->
                 contains (lit "gpa") q = true).
    { apply contains_longer. exists (lit "c"), []. reflexivity. }
    assert (Hs : contains (lit "sgpa") q = true ->
                 contains (lit "gpa") q = true).
    { apply contains_longer. exists (lit "s"), []. reflexivity. }
    destruct (contains (lit "gpa") q); [reflexivity|].
    destruct (contains (lit "cgpa") q); [now specialize (Hc eq_refl)|].
    destruct (contains (lit "sgpa") q); [now specialize (Hs eq_refl)|].
    cbn [orb]. now rewrite orb_false_r.
Qed.

(** ** More on [query] *)

Lemma index_some_in {A : Type} (l : list A) (i : Z) (x : A) :
  Py.index l i = Some x -> In x l.
Proof.
  unfold Py.index.
  destruct ((0 <=? i) && (i <? len l))%bool; [apply nth_error_In|].
  destruct ((- len l <=? i) && (i <? 0))%bool; [apply nth_error_In|].
  discriminate.
Qed.

Lemma index_none_below {A : Type} (l : list A) (i : Z) :
  i < len l -> Py.index l i = None -> i < - len l.
Proof.
  intros Hi H. destruct (Z_lt_ge_dec i (- len l)) as [Hlt|Hge]; [exact Hlt|].
  exfalso. destruct (Z_lt_ge_dec i 0) as [Hn|Hp].
  - unfold Py.index in H.
    replace ((0 <=? i) && (i <? len l))%bool with false in H
      by (symmetry; apply andb_false_iff; left; apply Z.leb_gt; lia).
    replace ((- len l <=? i) && (i <? 0))%bool with true in H
      by (symmetry; apply andb_true_iff; split;
          [apply Z.leb_le | apply Z.ltb_lt]; lia).
    apply nth_error_None in H. unfold len in *. lia.
  - destruct (index_in_range l i) as [x Hx]; [lia|]. congruence.
Qed.

Lemma index_some_above {A : Type} (l : list A) (i : Z) (x : A) :
  Py.index l i = Some x -> - len l <= i.
Proof.
  unfold Py.index. pose proof (len_nonneg l).
  destruct ((0 <=? i) && (i <? len l))%bool eqn:E.
  - apply andb_true_iff in E. destruct E as [E _]. apply Z.leb_le in E. lia.
  - destruct ((- len l <=? i) && (i <? 0))%bool eqn:E2; [|discriminate].
    apply andb_true_iff in E2. destruct E2 as [E2 _]. apply Z.leb_le in E2.
    lia.
Qed.

(** What the extractor returns is never the empty string, so its truth
    value is that of having returned something. *)
Lemma truthy_extract (question t : str) :
  truthy (_extract_field_from_text question t)
  = _extract_field_from_text question t.
Proof.
  destruct (_extract_field_from_text question t) as [a|] eqn:E;
    [|reflexivity].
  exact (truthy_headed nonspace a (extract_field_headed _ _ _ E)).
Qed.

(** The loop over the hits, when the extractor finds nothing in any chunk. *)
Lemma results_loop_prefixes (score : Type) (docs : list Chunk)
    (question : str) :
  (forall d, In d docs -> _extract_field_from_text question (text d) = None) ->
  forall hits results,
    results_loop score docs question hits results =
    if existsb (below docs) hits then Raise
    else Ret (results ++ map (prefix_result docs) (filter (kept docs) hits)).
Proof.
  intros Hnone. induction hits as [|[sc idx] rest IH]; intros results.
  - simpl. now rewrite app_nil_r.
  - cbn [results_loop existsb filter]. unfold below at 1, kept at 1.
    cbn [snd]. destruct (idx <? len docs) eqn:E.
    + apply Z.ltb_lt in E. destruct (Py.index docs idx) as [d|] eqn:Ei.
      * pose proof (index_some_above _ _ _ Ei) as Ha.
        replace (idx <? - len docs) with false
          by (symmetry; apply Z.ltb_ge; lia).
        rewrite (Hnone d (index_some_in _ _ _ Ei)). cbn [truthy orb].
        rewrite IH. destruct (existsb (below docs) rest); [reflexivity|].
        rewrite <- app_assoc. cbn [map app]. unfold prefix_result at 2.
        unfold chunk_at. cbn [fst snd]. rewrite Ei. reflexivity.
      * pose proof (index_none_below _ _ E Ei) as Hb.
        replace (idx <? - len docs) with true
          by (symmetry; apply Z.ltb_lt; lia).
        reflexivity.
    + apply Z.ltb_ge in E. pose proof (len_nonneg docs).
      replace (idx <? - len docs) with false
        by (symmetry; apply Z.ltb_ge; lia).
      cbn [orb]. apply IH.
Qed.

Lemma chunk_text_in_all_text (docs : list Chunk) (d : Chunk) :
  In d docs -> infix (text d) (all_text docs).
Proof.
  intros H. unfold all_text. apply join_infix. now apply in_map.
Qed.

(** ** Theorems on [query] *)

(** The semantic branch of [query]: the extractor finds nothing in the
    chunks either, so every result is made of prefixes of its chunk. *)
Lemma exec_query_fallback (score : Type)
    (semantic : str -> Z -> list (score * Z)) (docs : list Chunk)
    (question : str) (k : Z) :
  docs <> [] ->
  _extract_field_from_text question (all_text docs) = None ->
  exec semantic (query score docs question k) =
  if existsb (below docs) (semantic question k) then None
  else Some (map (prefix_result docs)
               (filter (kept docs) (semantic question k))).
Proof.
  intros Hne E. destruct docs as [|d0 docs]; [congruence|].
  unfold query. rewrite truthy_extract, E.
  cbn [exec]. rewrite results_loop_prefixes.
  - destruct (existsb _ _); reflexivity.
  - intros d Hd. eapply extract_field_mono; [|exact E].
    now apply chunk_text_in_all_text.
Qed.

(** X12.  What [query] returns, in closed form: nothing for an empty store; the
    single direct result when the extractor finds a value in the corpus;
    otherwise one result for each hit that passes the bound test, in the
    order of the hits, with the hit's score and the first 200 and 500
    characters of its chunk.  In that last case the extractor is run on each
    chunk again but can find nothing there, since it found nothing in the
    corpus.  This is for a positive [k], for which the search returns its
    hits; the only error then is a hit below [-len(docs_meta)]. *)
Theorem query_in_closed_form (score : Type)
    (semantic : str -> Z -> list (score * Z)) (docs : list Chunk)
    (question : str) (k : Z) :
  1 <= k ->
  exec semantic (query score docs question k) =
  match docs with
  | [] => Some []
  | _ =>
      match _extract_field_from_text question (all_text docs) with
      | Some a => Some [direct_result a]
      | None =>
          let hits := semantic question k in
          if existsb (below docs) hits then None
          else Some (map (prefix_result docs) (filter (kept docs) hits))
      end
  end.
Proof.
  intros _. destruct docs as [|d0 docs]; [reflexivity|].
  destruct (_extract_field_from_text question (all_text (d0 :: docs)))
    as [a|] eqn:E.
  - unfold query. now rewrite truthy_extract, E.
  - cbv zeta. apply exec_query_fallback; [discriminate | exact E].
Qed.

Lemma query_in_closed_form_witness :
  exec (fun _ _ => [(9, 1); (5, 7); (0, -1)])
    (query Z (store_of ["alpha"; "omega"]%string) (lit "anything") 3)
  = Some [ {| score_ := Some 9;
              answer := lit "omega"; context := lit "omega" |};
           {| score_ := Some 0;
              answer := lit "omega"; context := lit "omega" |} ].
Proof.
  etransitivity.
  - apply (query_in_closed_form Z (fun _ _ => [(9, 1); (5, 7); (0, -1)])).
    lia.
  - vm_compute. reflexivity.
Defined.

(** X13.  For a positive [k], [query] does not raise when every row the
    search returns is -1 or more, as the rows of the index are. *)
Theorem query_is_safe_on_index_rows (score : Type)
    (semantic : str -> Z -> list (score * Z)) (docs : list Chunk)
    (question : str) (k : Z) :
  1 <= k ->
  Forall (fun hit => -1 <= snd hit) (semantic question k) ->
  exec semantic (query score docs question k) <> None.
Proof.
  intros _ H. destruct docs as [|d0 docs]; [discriminate|].
  unfold query. rewrite truthy_extract.
  destruct (_extract_field_from_text question (all_text (d0 :: docs)))
    as [a|] eqn:E; [discriminate|].
  cbn [exec].
  assert (Hsafe : forall hits results,
    Forall (fun hit : score * Z => -1 <= snd hit) hits ->
    exec semantic (results_loop score (d0 :: docs) question hits results)
    <> None).
  { induction hits as [|[sc idx] rest IH]; intros results Hall;
      [discriminate|].
    inversion Hall; subst. cbn [snd] in *. cbn [results_loop].
    destruct (idx <? len (d0 :: docs)) eqn:Ei; [|now apply IH].
    apply Z.ltb_lt in Ei.
    destruct (Py.index (d0 :: docs) idx) eqn:Ex; [now apply IH|].
    apply index_none_below in Ex; [|exact Ei].
    unfold len in Ex. simpl length in Ex. lia. }
  now apply Hsafe.
Qed.

Lemma query_is_safe_on_index_rows_witness :
  exec (fun _ _ => [(9, 1); (5, 0); (0, -1)])
    (query Z (store_of ["alpha"; "omega"]%string) (lit "anything") 3)
  <> None.
Proof.
  apply query_is_safe_on_index_rows; [lia|].
  repeat constructor; simpl; lia.
Defined.

Section QueryAfterUpload.

Variable vec : Type.
Variable encode : str -> vec.


End QueryAfterUpload.


(** ** Splitting and joining words *)

Lemma split_from_app_space (sp : ascii) (s2 : str) :
  isspace sp = true ->
  forall s cur,
    split_from cur (s ++ sp :: s2) = split_from cur s ++ split_from [] s2.
Proof.
  intros Hsp. induction s as [|c r IH]; intros cur; simpl.
  - rewrite Hsp. now destruct cur.
  - destruct (isspace c).
    + destruct cur; simpl; now rewrite IH.
    + apply IH.
Qed.

Lemma split_from_word (w : str) :
  forallb (fun a => negb (isspace a)) w = true ->
  forall cur,
    split_from cur w =
    match rev cur ++ w with
    | [] => []
    | x => [x]
    end.
Proof.
  induction w as [|c r IH]; intros Hw cur; simpl.
  - rewrite app_nil_r. destruct cur as [|a cur]; [reflexivity|].
    simpl. now destruct (rev cur).
  - simpl in Hw. apply andb_true_iff in Hw. destruct Hw as [Hc Hr].
    apply negb_true_iff in Hc. rewrite Hc, (IH Hr). simpl.
    now rewrite <- app_assoc.
Qed.

Lemma split_word (w : str) : word w -> split w = [w].
Proof.
  intros [Hne Hw]. unfold split. rewrite (split_from_word w Hw). simpl.
  now destruct w.
Qed.

(** Joining words with single spaces and splitting again gives the words
    back. *)
Lemma split_join_words (ws : list str) :
  Forall word ws -> split (join (lit " ") ws) = ws.
Proof.
  induction ws as [|w ws IH]; intros H; [reflexivity|].
  inversion H as [|? ? Hw Hws]; subst. destruct ws as [|w2 ws].
  - simpl. now apply split_word.
  - change (join (lit " ") (w :: w2 :: ws))
      with (w ++ " "%char :: join (lit " ") (w2 :: ws)).
    unfold split. rewrite split_from_app_space by reflexivity.
    fold (split w). fold (split (join (lit " ") (w2 :: ws))).
    rewrite (split_word w Hw), (IH Hws). reflexivity.
Qed.

Lemma split_gives_words (s : str) : Forall word (split s).
Proof. exact (split_words s). Qed.

Lemma summary_gpa_value_is_a_word (t : str) (v : str) :
  grp 1 id (search (IGNORECASE SUMMARY_GPA_RE) t) = Some v -> word v.
Proof.
  unfold grp. intros H. open_search H m E. open_group1 H m g G. unfold id.
  split.
  - assert (Hh : headed nonspace g) by (by_check search_group1_headed).
    destruct Hh as (a & g' & -> & _). discriminate.
  - change (forallb nonspace g = true). by_check search_group1_chars.
Qed.

Lemma slice_from_start {A : Type} (l : list A) (b : Z) :
  slice l 0 b = firstn (Z.to_nat (if b <? 0 then len l + b else b)) l.
Proof.
  destruct (b <? 0) eqn:E.
  - apply Z.ltb_lt in E. unfold slice, clamp. pose proof (len_nonneg l).
    replace (b <? 0) with true by (symmetry; apply Z.ltb_lt; lia).
    change (0 <? 0) with false. cbv iota.
    rewrite Z.min_l by lia. simpl skipn. f_equal. lia.
  - apply Z.ltb_ge in E. now apply slice_prefix.
Qed.

(** ** Theorems on [summarize_doc] *)

(** X15.  The words of a summary: the two words of the GPA line when there is
    one, then the first [word_count] words of the corpus, then the ellipsis
    when the corpus has more words.  A negative [word_count] counts from the
    end (all words but the last [-word_count]) and always gives the
    ellipsis. *)
Theorem summary_words_are_the_first_words (docs : list Chunk)
    (word_count : Z) :
  let words := split (all_text docs) in
  split (summarize_doc docs word_count) =
  match grp 1 id (search (IGNORECASE SUMMARY_GPA_RE) (all_text docs)) with
  | Some value => [lit "CGPA:"; value]
  | None => []
  end
  ++ firstn (Z.to_nat (if word_count <? 0 then len words + word_count
                       else word_count)) words
  ++ (if word_count <? len words then [lit "..."] else []).
Proof.
  intros words. unfold summarize_doc. fold (all_text docs). fold words.
  rewrite slice_from_start.
  set (fw := firstn _ words).
  assert (Hfw : Forall word fw).
  { pose proof (split_gives_words (all_text docs)) as Hall.
    fold words in Hall. subst fw.
    rewrite <- (firstn_skipn
                  (Z.to_nat (if word_count <? 0 then len words + word_count
                             else word_count)) words) in Hall.
    apply Forall_app in Hall. tauto. }
  assert (Hbody : split (join (lit " ") fw
                         ++ (if word_count <? len words
                             then lit " ..." else []))
                  = fw ++ (if word_count <? len words
                           then [lit "..."] else [])).
  { destruct (word_count <? len words).
    - change (lit " ...") with (" "%char :: lit "...").
      unfold split. rewrite split_from_app_space by reflexivity.
      fold (split (join (lit " ") fw)). rewrite (split_join_words fw Hfw).
      reflexivity.
    - rewrite !app_nil_r. now apply split_join_words. }
  destruct (grp 1 id (search (IGNORECASE SUMMARY_GPA_RE) (all_text docs)))
    as [v|] eqn:G; [|exact Hbody].
  pose proof (summary_gpa_value_is_a_word _ _ G) as Hv.
  change (lit "CGPA: " ++ v ++ ["010"%char])
    with (lit "CGPA:" ++ " "%char :: (v ++ ["010"%char])).
  rewrite <- !app_assoc. rewrite <- app_comm_cons.
  unfold split at 1. rewrite split_from_app_space by reflexivity.
  rewrite <- !app_assoc. cbn [app].
  rewrite split_from_app_space by reflexivity.
  fold (split v). rewrite (split_word v Hv).
  fold (split (join (lit " ") fw
               ++ (if word_count <? len words then lit " ..." else []))).
  rewrite Hbody. reflexivity.
Qed.

(** ** Theorems on the upload block *)

Lemma blank_document_has_no_chunks (file : list (option str)) :
  forallb blank file = true -> extract_and_chunk_pdf file = Done [].
Proof.
  unfold extract_and_chunk_pdf. induction file as [|page rest IH]; simpl forallb.
  - reflexivity.
  - rewrite andb_true_iff. intros [Hb Hr].
    rewrite page_loop_blank by exact Hb. now apply IH.
Qed.

Section UploadTheorems.

Variable vec : Type.
Variable encode : str -> vec.

(** X16.  An upload only appends: what the two stores held stays in place, both
    grow by one entry for each chunk of the file, and rows that were
    aligned with the chunks stay so. *)
Theorem upload_only_appends (st : State vec) (file : list (option str)) :
  exists st' chunks,
    upload vec encode st file = Done st'
    /\ extract_and_chunk_pdf file = Done chunks
    /\ docs_meta st' = docs_meta st ++ numbered chunks
    /\ index st' = index st ++ map encode chunks
    /\ (aligned encode st -> aligned encode st').
Proof.
  destruct (upload_done vec encode st file)
    as (chunks & He & _ & st' & Hu & Hi & Hd).
  exists st', chunks. repeat split; try assumption.
  unfold aligned. intros Ha.
  rewrite Hi, Hd, Ha, map_app. f_equal.
  rewrite <- (map_map text encode), numbered_text. reflexivity.
Qed.

(** X17.  Uploading a document without text (no page, or blank pages only)
    leaves both stores as they are. *)
Theorem blank_upload_changes_nothing (st : State vec)
    (file : list (option str)) :
  forallb blank file = true -> upload vec encode st file = Done st.
Proof.
  intros H. unfold upload.
  now rewrite (blank_document_has_no_chunks file H).
Qed.

End UploadTheorems.

Lemma upload_only_appends_witness :
  exists st' chunks,
    upload unit (fun _ => tt)
      {| index := [tt]; docs_meta := store_of ["kept"]%string |}
      [Some (lit "new text")] = Done st'
    /\ docs_meta st' = store_of ["kept"]%string ++ numbered chunks
    /\ aligned (fun _ => tt) st'.
Proof.
  destruct (upload_only_appends unit (fun _ => tt)
              {| index := [tt]; docs_meta := store_of ["kept"]%string |}
              [Some (lit "new text")])
    as (st' & chunks & Hu & _ & Hd & _ & Ha).
  exists st', chunks. split; [exact Hu|]. split; [exact Hd|].
  apply Ha. reflexivity.
Defined.

Lemma blank_upload_changes_nothing_witness :
  upload unit (fun _ => tt)
    {| index := [tt]; docs_meta := store_of ["kept"]%string |}
    [None; Some (lit "   "); Some []]
  = Done {| index := [tt]; docs_meta := store_of ["kept"]%string |}.
Proof. apply blank_upload_changes_nothing. vm_compute. reflexivity. Defined.

(** ** Theorems on the script *)

Lemma exec_pbind {score A B : Type} (semantic : str -> Z -> list (score * Z))
    (p : prog score A) (f : A -> prog score B) :
  exec semantic (pbind score p f) =
  match exec semantic p with
  | Some a => exec semantic (f a)
  | None => None
  end.
Proof.
  induction p as [a| |question k cont IH]; simpl; [reflexivity..|].
  apply IH.
Qed.

Lemma all_text_numbered (chunks : list str) :
  all_text (numbered chunks) = join (lit " ") chunks.
Proof. unfold all_text. now rewrite numbered_text. Qed.

Section ScriptTheorems.

Variables vec score : Type.
Variable encode : str -> vec.

(** X18.  For a document without text the script shows the success message and
    nothing more: no summary, no question field, and a question typed
    earlier is not looked at. *)
Theorem script_stops_at_a_blank_document (file : list (option str))
    (user_q : str) :
  forallb blank file = true ->
  script vec score encode (Some file) user_q =
  Done (Ret [ title "📄 Document Analyzer AI Agent";
              file_uploader "Upload a PDF file";
              success "PDF uploaded successfully!" ]).
Proof.
  intros H. unfold script.
  now rewrite (blank_document_has_no_chunks file H).
Qed.

(** X19.  What the script shows for a question on a document with text, when no
    hit is below the store: after the page shown without a question, either
    the value extracted from the whole corpus with the context
    [Extracted directly]; or, when the extractor finds nothing, the first
    200 and 500 characters of the chunk of the first hit that passes the
    bound test; or the warning when no hit passes it. *)
Theorem script_shows_the_first_answer
    (semantic : str -> Z -> list (score * Z)) (file : list (option str))
    (user_q : str) (chunks : list str) :
  extract_and_chunk_pdf file = Done chunks ->
  chunks <> [] -> user_q <> [] ->
  existsb (below (numbered chunks)) (semantic user_q 5) = false ->
  exists page p,
    script vec score encode (Some file) [] = Done (Ret page)
    /\ script vec score encode (Some file) user_q = Done p
    /\ exec semantic p =
       Some (page ++
             match _extract_field_from_text user_q (join (lit " ") chunks) with
             | Some a =>
                 [ write [lit "**Answer:**"; a];
                   expander "Show context"
                     [write [lit "Extracted directly"]] ]
             | None =>
                 match filter (kept (numbered chunks)) (semantic user_q 5) with
                 | hit :: _ =>
                     let chunk := text (chunk_at (numbered chunks) (snd hit)) in
                     [ write [lit "**Answer:**"; slice chunk 0 200];
                       expander "Show context" [write [slice chunk 0 500]] ]
                 | [] => [warning "No answer found."]
                 end
             end).
Proof.
  intros He Hc Hq Hb. unfold script. rewrite He. cbn [obind].
  destruct chunks as [|c0 chunks]; [congruence|].
  destruct user_q as [|q0 user_q]; [congruence|].
  cbn [init docs_meta index]. rewrite append_chunks_numbered. cbn [app].
  eexists. eexists. split; [reflexivity|]. split; [reflexivity|].
  rewrite exec_pbind, <- all_text_numbered.
  destruct (_extract_field_from_text (q0 :: user_q)
              (all_text (numbered (c0 :: chunks)))) as [a|] eqn:E.
  - unfold query at 1. rewrite truthy_extract, E. reflexivity.
  - rewrite exec_query_fallback by (discriminate || exact E).
    rewrite Hb. destruct (filter _ _) as [|hit hits]; reflexivity.
Qed.

End ScriptTheorems.

Lemma script_stops_at_a_blank_document_witness :
  script unit Z (fun _ => tt) (Some [Some (lit "  "); None])
    (lit "What is the CGPA?") =
  Done (Ret [ title "📄 Document Analyzer AI Agent";
              file_uploader "Upload a PDF file";
              success "PDF uploaded successfully!" ]).
Proof.
  apply script_stops_at_a_blank_document. vm_compute. reflexivity.
Defined.

Lemma script_shows_the_first_answer_witness :
  exists page p,
    script unit Z (fun _ => tt) (Some [Some (lit "Asha studies physics")]) []
    = Done (Ret page)
    /\ script unit Z (fun _ => tt) (Some [Some (lit "Asha studies physics")])
         (lit "What is the email?") = Done p
    /\ exec (fun _ _ => [(7, 0); (0, -1); (0, -1); (0, -1); (0, -1)]) p =
       Some (page ++
             [ write [lit "**Answer:**"; lit "Asha studies physics"];
               expander "Show context" [write [lit "Asha studies physics"]] ]).
Proof.
  destruct (script_shows_the_first_answer unit Z (fun _ => tt)
              (fun _ _ => [(7, 0); (0, -1); (0, -1); (0, -1); (0, -1)])
              [Some (lit "Asha studies physics")] (lit "What is the email?")
              [lit "Asha studies physics"])
    as (page & p & H1 & H2 & H3);
    [vm_compute; reflexivity | discriminate | discriminate
    | vm_compute; reflexivity |].
  exists page, p. split; [exact H1|]. split; [exact H2|].
  rewrite H3. vm_compute. reflexivity.
Defined.

(** ** The language of a pattern *)

Lemma sem_lang (r : regex) (m : str) (c c' : caps) :
  Sem r m c c' -> Lang r m.
Proof. induction 1; now constructor. Qed.

Lemma lang_sem (r : regex) (m : str) :
  Lang r m -> forall c, exists c', Sem r m c c'.
Proof.
  induction 1; intros c.
  - eexists. constructor.
  - eexists. now constructor.
  - destruct (IHLang1 c) as [c1 H1]. destruct (IHLang2 c1) as [c2 H2].
    eexists. econstructor; eassumption.
  - destruct (IHLang c) as [c' H']. eexists. apply SemAltL. eassumption.
  - destruct (IHLang c) as [c' H']. eexists. apply SemAltR. eassumption.
  - eexists. now constructor.
  - destruct (IHLang c) as [c' H']. eexists. apply SemOptSome. eassumption.
  - eexists. apply SemOptNone.
  - destruct (IHLang c) as [c' H']. eexists. constructor. eassumption.
Qed.

(** [search] succeeds exactly when some piece of the text is in the
    language of the pattern. *)
Lemma search_found (r : regex) (t : str) :
  search r t <> None <-> exists pre m post, t = pre ++ m ++ post /\ Lang r m.
Proof.
  split.
  - destruct (search r t) as [m|] eqn:E; [intros _|congruence].
    destruct (search_infix _ _ _ E) as (pre & post & Ht).
    exists pre, (whole m), post. split; [exact Ht|].
    eapply sem_lang, search_sound, E.
  - intros (pre & m & post & -> & HL) Hn.
    destruct (lang_sem _ _ HL []) as [c' HS].
    exact (search_complete r pre m post c' Hn HS).
Qed.

Lemma lang_cat (r1 r2 : regex) (m : str) :
  Lang (Cat r1 r2) m <->
  exists m1 m2, m = m1 ++ m2 /\ Lang r1 m1 /\ Lang r2 m2.
Proof.
  split.
  - intros H. inversion H; subst. eauto.
  - intros (m1 & m2 & -> & H1 & H2). now constructor.
Qed.

Lemma lang_alt (r1 r2 : regex) (m : str) :
  Lang (Alt r1 r2) m <-> Lang r1 m \/ Lang r2 m.
Proof.
  split.
  - intros H. inversion H; subst; auto.
  - intros [H|H]; [now apply LangAltL | now apply LangAltR].
Qed.

Lemma lang_grp (n : nat) (r : regex) (m : str) :
  Lang (Grp n r) m <-> Lang r m.
Proof.
  split; [intros H; now inversion H | now constructor].
Qed.

Lemma respects_set (phi : ascii -> ascii) (p : ascii -> bool) (a : ascii) :
  forallb (fun a => Bool.eqb (p (phi a)) (p a)) all_ascii = true ->
  p (phi a) = p a.
Proof.
  rewrite forallb_forall. intros H.
  apply Bool.eqb_prop, H, all_ascii_complete.
Qed.

Lemma lang_map (phi : ascii -> ascii) (r : regex) (m : str) :
  respects phi r = true -> Lang r m -> Lang r (map phi m).
Proof.
  intros Hr H. induction H; cbn [respects] in Hr; cbn [map].
  - constructor.
  - constructor. now rewrite (respects_set phi p a Hr).
  - apply andb_true_iff in Hr. destruct Hr.
    rewrite map_app. constructor; auto.
  - apply andb_true_iff in Hr. destruct Hr. apply LangAltL. auto.
  - apply andb_true_iff in Hr. destruct Hr. apply LangAltR. auto.
  - constructor; rewrite ?length_map; auto.
    rewrite forallb_forall in H |- *. intros x Hx. apply in_map_iff in Hx.
    destruct Hx as (a & <- & Ha). rewrite (respects_set phi p a Hr). auto.
  - apply LangOptSome. auto.
  - apply LangOptNone.
  - constructor. auto.
Qed.

Lemma lang_unmap (phi : ascii -> ascii) (r : regex) (m : str) :
  respects phi r = true -> Lang r m ->
  forall m0, m = map phi m0 -> Lang r m0.
Proof.
  intros Hr H. induction H; intros m0 Hm; cbn [respects] in Hr.
  - symmetry in Hm. apply map_eq_nil in Hm. subst. constructor.
  - destruct m0 as [|a0 [|b0 m0]]; try discriminate. inversion Hm; subst.
    constructor. now rewrite <- (respects_set phi p a0 Hr).
  - apply andb_true_iff in Hr. destruct Hr.
    symmetry in Hm. apply map_eq_app in Hm.
    destruct Hm as (l1 & l2 & -> & E1 & E2).
    constructor; [apply IHLang1 | apply IHLang2]; auto.
  - apply andb_true_iff in Hr. destruct Hr. apply LangAltL. auto.
  - apply andb_true_iff in Hr. destruct Hr. apply LangAltR. auto.
  - subst. rewrite length_map in *. constructor; auto.
    rewrite forallb_forall in H |- *. intros x Hx.
    rewrite <- (respects_set phi p x Hr). apply H. now apply in_map.
  - apply LangOptSome. auto.
  - symmetry in Hm. apply map_eq_nil in Hm. subst. apply LangOptNone.
  - constructor. auto.
Qed.

(** ** The two GPA patterns *)

Lemma GPA_RE_shape :
  GPA_RE = gpa_like (Alts [Str "CGPA"; Str "GPA"; Str "CPI"; Str "SGPA"])
             (Rep digit 1 (Some 2%nat)).
Proof. reflexivity. Qed.

Lemma SUMMARY_GPA_RE_shape :
  SUMMARY_GPA_RE =
  gpa_like (Alts [Str "CGPA"; Str "GPA"; Str "SGPA"; Str "CPI"]) (Plus digit).
Proof. reflexivity. Qed.

Lemma gpa_like_lang (L D : regex) (m : str) :
  Lang (IGNORECASE (gpa_like L D)) m <->
  exists l w d f,
    m = l ++ w ++ d ++ f
    /\ Lang (IGNORECASE L) l
    /\ Lang (IGNORECASE gpa_gap) w
    /\ Lang (IGNORECASE D) d
    /\ Lang (IGNORECASE gpa_frac) f.
Proof.
  change (IGNORECASE (gpa_like L D))
    with (Cat (IGNORECASE L)
            (Cat (IGNORECASE (Star space))
               (Cat (IGNORECASE (Maybe (one_of ":=-")))
                  (Cat (IGNORECASE (Star space))
                     (Grp 1 (Cat (IGNORECASE D) (IGNORECASE gpa_frac))))))).
  change (IGNORECASE gpa_gap)
    with (Cat (IGNORECASE (Star space))
            (Cat (IGNORECASE (Maybe (one_of ":=-")))
               (IGNORECASE (Star space)))).
  split.
  - intros H.
    apply lang_cat in H. destruct H as (l & x1 & -> & Hl & H).
    apply lang_cat in H. destruct H as (w1 & x2 & -> & Hw1 & H).
    apply lang_cat in H. destruct H as (s & x3 & -> & Hs & H).
    apply lang_cat in H. destruct H as (w2 & g & -> & Hw2 & H).
    apply lang_grp, lang_cat in H. destruct H as (d & f & -> & Hd & Hf).
    exists l, (w1 ++ s ++ w2), d, f. rewrite <- !app_assoc.
    split; [reflexivity|]. split; [exact Hl|]. split; [|now split].
    apply LangCat; [exact Hw1|]. now apply LangCat.
  - intros (l & w & d & f & -> & Hl & Hw & Hd & Hf).
    apply lang_cat in Hw. destruct Hw as (w1 & x & -> & Hw1 & Hw).
    apply lang_cat in Hw. destruct Hw as (s & w2 & -> & Hs & Hw2).
    rewrite <- !app_assoc.
    apply LangCat; [exact Hl|]. apply LangCat; [exact Hw1|].
    apply LangCat; [exact Hs|]. apply LangCat; [exact Hw2|].
    apply LangGrp. now apply LangCat.
Qed.

Lemma gpa_labels_lang (a b c d : regex) (l : str) :
  Lang (IGNORECASE (Alts [a; b; c; d])) l <->
  Lang (IGNORECASE (Alts [a; b; d; c])) l.
Proof.
  cbn [Alts IGNORECASE]. rewrite !lang_alt. tauto.
Qed.

(** Whatever the GPA pattern of the extractor matches, the one of the
    summarizer matches too. *)
Lemma gpa_lang_in_summary_lang (m : str) :
  Lang (IGNORECASE GPA_RE) m -> Lang (IGNORECASE SUMMARY_GPA_RE) m.
Proof.
  rewrite GPA_RE_shape, SUMMARY_GPA_RE_shape, !gpa_like_lang.
  intros (l & w & d & f & -> & Hl & Hw & Hd & Hf).
  exists l, w, d, f. split; [reflexivity|].
  split; [now apply gpa_labels_lang|]. split; [exact Hw|].
  split; [|exact Hf].
  inversion Hd; subst. now constructor.
Qed.

(** Whatever the summarizer's pattern matches starts with a match of the
    extractor's: the same label and separator, and the first digit. *)
Lemma summary_lang_starts_with_gpa_lang (m : str) :
  Lang (IGNORECASE SUMMARY_GPA_RE) m ->
  exists m1 m2, m = m1 ++ m2 /\ Lang (IGNORECASE GPA_RE) m1.
Proof.
  rewrite GPA_RE_shape, SUMMARY_GPA_RE_shape, gpa_like_lang.
  intros (l & w & d & f & -> & Hl & Hw & Hd & Hf).
  inversion Hd as [| | | | |p lo hi m' Hp Hlen Hin| | |]; subst.
  destruct d as [|a d]; [simpl in Hlen; lia|].
  simpl in Hp. apply andb_true_iff in Hp. destruct Hp as [Ha Hp].
  exists (l ++ w ++ [a] ++ []), (d ++ f). split.
  - rewrite <- !app_assoc. reflexivity.
  - apply gpa_like_lang. exists l, w, [a], [].
    split; [reflexivity|]. split; [now apply gpa_labels_lang|].
    split; [exact Hw|]. split.
    + constructor; [simpl; now rewrite Ha | simpl; lia | reflexivity].
    + apply LangOptNone.
Qed.

(** The summarizer's pattern is found in a text exactly when the
    extractor's pattern is found in the text with its line breaks turned
    into spaces. *)
Lemma summary_gpa_found (t : str) :
  search (IGNORECASE SUMMARY_GPA_RE) t <> None <->
  search (IGNORECASE GPA_RE) (replace "010"%char " "%char t) <> None.
Proof.
  change (replace "010"%char " "%char t) with (map unbreak t).
  assert (Hr : respects unbreak (IGNORECASE GPA_RE) = true)
    by (vm_compute; reflexivity).
  rewrite !search_found. split.
  - intros (pre & m & post & -> & HL).
    destruct (summary_lang_starts_with_gpa_lang m HL) as (m1 & m2 & -> & H1).
    exists (map unbreak pre), (map unbreak m1), (map unbreak (m2 ++ post)).
    split; [now rewrite !map_app, <- !app_assoc|].
    now apply lang_map.
  - intros (pre & m & post & Ht & HL).
    apply map_eq_app in Ht. destruct Ht as (pre0 & rest0 & -> & _ & Ht).
    apply map_eq_app in Ht. destruct Ht as (m0 & post0 & -> & Hm & _).
    exists pre0, m0, post0. split; [reflexivity|].
    apply gpa_lang_in_summary_lang.
    apply (lang_unmap unbreak _ m Hr HL). now symmetry.
Qed.

Lemma extract_gpa_question (t : str) :
  _extract_field_from_text (lit "gpa") t =
  extract GPA (replace "010"%char " "%char t).
Proof.
  rewrite extract_field_attempts. unfold priority, attempts, attempt.
  change (keyword Name (lower (lit "gpa"))) with false.
  change (keyword Semester (lower (lit "gpa"))) with false.
  change (keyword GPA (lower (lit "gpa"))) with true.
  change (keyword Email (lower (lit "gpa"))) with false.
  change (keyword Phone (lower (lit "gpa"))) with false.
  change (keyword GitHubURL (lower (lit "gpa"))) with false.
  cbv iota. now destruct (extract GPA _).
Qed.

(** X20.  The summary starts with a GPA line exactly when the question [gpa] is
    answered by direct extraction from the same corpus, although the two
    use different patterns and the extractor reads the corpus with its line
    breaks turned into spaces. *)
Theorem gpa_line_goes_with_gpa_answer (docs : list Chunk) (word_count : Z) :
  match _extract_field_from_text (lit "gpa") (all_text docs) with
  | Some _ =>
      exists value,
        word value
        /\ summarize_doc docs word_count =
           lit "CGPA: " ++ value ++ ["010"%char]
           ++ summary_body docs word_count
  | None => summarize_doc docs word_count = summary_body docs word_count
  end.
Proof.
  rewrite extract_gpa_question.
  pose proof (summary_gpa_found (all_text docs)) as Hiff.
  unfold summarize_doc, summary_body. fold (all_text docs).
  destruct (extract GPA (replace "010"%char " "%char (all_text docs)))
    as [a|] eqn:E.
  - assert (Hs : search (IGNORECASE SUMMARY_GPA_RE) (all_text docs) <> None).
    { apply Hiff. unfold extract, grp in E.
      destruct (search (IGNORECASE GPA_RE) _); [discriminate|discriminate E]. }
    destruct (grp 1 id (search (IGNORECASE SUMMARY_GPA_RE) (all_text docs)))
      as [v|] eqn:G.
    + exists v. split; [exact (summary_gpa_value_is_a_word _ _ G)|].
      now rewrite <- !app_assoc.
    + exfalso. unfold grp in G.
      destruct (search (IGNORECASE SUMMARY_GPA_RE) (all_text docs))
        as [m|] eqn:S; [|congruence].
      destruct (group 1 m) eqn:G1; [discriminate|].
      eapply group1_participates; [|exact S|exact G1]. simpl. tauto.
  - assert (Hg : search (IGNORECASE GPA_RE)
                   (replace "010"%char " "%char (all_text docs)) = None).
    { unfold extract, grp in E.
      destruct (search (IGNORECASE GPA_RE) _) as [m|] eqn:S; [|reflexivity].
      exfalso. destruct (group 1 m) eqn:G1; [discriminate|].
      eapply group1_participates; [|exact S|exact G1]. simpl. tauto. }
    destruct (search (IGNORECASE SUMMARY_GPA_RE) (all_text docs)) eqn:S.
    + exfalso. apply (proj1 Hiff); [discriminate | exact Hg].
    + reflexivity.
Qed.
